(** * nonebot-plugin-llmchat: the per-group message pipeline

    A shallow embedding of [nonebot_plugin_llmchat/__init__.py]: the reply
    splitter ([pop_reasoning_content] and the [<botbr>] segmentation), the
    bounded [deque]s of [GroupState], the admission rule [is_triggered], the
    dispatcher [handle_message], the worker coroutine [process_messages]
    cut at its suspension points, the administrative handlers, and the
    snapshot pair [save_state] / [load_state].

    Conventions.
    - A Python [str] is a list of Unicode code points ([pystr]).
    - [Optional[str]] is [option pystr]; Python truthiness of such a value
      is [truthy].
    - A [deque(maxlen=n)] is a record of its bound and its items.
    - A [float] ([time.time()], [random.random()], the trigger
      probability) is the rational it denotes.
    - Coroutines run on one asyncio loop: the code between two suspending
      [await]s is one atomic transition of the model.  The model call ends
      with a response or with an exception; [handler.send] and
      [asyncio.sleep] suspend and then return.
    - The transition system is that of one group, the record
      [group_states[group_id]]; [load_state] runs once, at start-up.
    - The statements of [load_state] check no type: a statement comes to
      a value, to an exception ([Raises]), or to a value of a shape the
      fields of [GroupState] are not declared with ([Untyped]), on which
      the model says nothing. *)

From Stdlib Require Import ZArith NArith QArith List String Ascii Bool Lia.
From Stdlib Require Import DecimalZ DecimalFacts.
From stdpp Require Import base option list gmap.
Import ListNotations.

Set Warnings "-register-all".
Local Open Scope nat_scope.
Local Open Scope list_scope.

(** ** Python strings *)

Module PyStr.

Abbreviation char := N (only parsing).
Abbreviation pystr := (list N) (only parsing).

(** ASCII literals of the source, as code points. *)
Fixpoint py (s : string) : pystr :=
  match s with
  | EmptyString => []
  | String a s' => N_of_ascii a :: py s'
  end.

Definition char_eqb (a b : char) : bool := N.eqb a b.

Fixpoint str_eqb (s t : pystr) : bool :=
  match s, t with
  | [], [] => true
  | a :: s', b :: t' => char_eqb a b && str_eqb s' t'
  | _, _ => false
  end.

(** [s.startswith(p)] *)
Fixpoint startswith (p s : pystr) : bool :=
  match p, s with
  | [], _ => true
  | a :: p', b :: s' => char_eqb a b && startswith p' s'
  | _ :: _, [] => false
  end.

(** The code points for which [str.isspace] holds; [str.strip()] without
    argument removes exactly these (CPython's [_PyUnicode_IsWhitespace]). *)
Definition is_whitespace (c : char) : bool :=
  ((9 <=? c) && (c <=? 13) || (28 <=? c) && (c <=? 32)
   || (c =? 133) || (c =? 160) || (c =? 5760)
   || (8192 <=? c) && (c <=? 8202)
   || (c =? 8232) || (c =? 8233) || (c =? 8239) || (c =? 8287)
   || (c =? 12288))%N.

Fixpoint lstrip (s : pystr) : pystr :=
  match s with
  | c :: s' => if is_whitespace c then lstrip s' else s
  | [] => []
  end.

Definition rstrip (s : pystr) : pystr := rev (lstrip (rev s)).

(** [s.strip()] *)
Definition strip (s : pystr) : pystr := rstrip (lstrip s).

(** [s.isspace()]: at least one character, all of them whitespace. *)
Definition isspace (s : pystr) : bool :=
  match s with
  | [] => false
  | _ => forallb is_whitespace s
  end.

(** [s.find(pat)] as the text before and after the first occurrence. *)
Fixpoint find_first (pat s : pystr) : option (pystr * pystr) :=
  if startswith pat s then Some ([], skipn (length pat) s)
  else match s with
       | [] => None
       | c :: s' =>
           match find_first pat s' with
           | Some (before, after) => Some (c :: before, after)
           | None => None
           end
       end.

(** [s.replace(old, new)] for a non-empty [old]: occurrences are taken
    left to right and do not overlap.  [skip] counts the characters of an
    occurrence that remain to be stepped over. *)
Fixpoint replace_from (old new s : pystr) (skip : nat) : pystr :=
  match s with
  | [] => []
  | c :: s' =>
      match skip with
      | S k => replace_from old new s' k
      | O =>
          if startswith old s
          then new ++ replace_from old new s' (length old - 1)
          else c :: replace_from old new s' 0
      end
  end.

(** [s.replace(old, new)]; with an empty [old], Python puts [new] before
    every character and at the end. *)
Definition replace (old new s : pystr) : pystr :=
  match old with
  | [] => flat_map (fun c => new ++ [c]) s ++ new
  | _ => replace_from old new s 0
  end.

(** [s.split(sep)] for a non-empty [sep]: [cur] is the piece being read, in
    reverse. *)
Fixpoint split_from (sep s : pystr) (skip : nat) (cur : pystr)
  : list pystr :=
  match s with
  | [] => [rev cur]
  | c :: s' =>
      match skip with
      | S k => split_from sep s' k cur
      | O =>
          if startswith sep s
          then rev cur :: split_from sep s' (length sep - 1) []
          else split_from sep s' 0 (c :: cur)
      end
  end.

Definition split (sep s : pystr) : list pystr := split_from sep s 0 [].

(** [sep.join(parts)] *)
Fixpoint join (sep : pystr) (parts : list pystr) : pystr :=
  match parts with
  | [] => []
  | [p] => p
  | p :: rest => p ++ sep ++ join sep rest
  end.

(** Truthiness of an [Optional[str]]: [None] and [""] are false. *)
Definition truthy (o : option pystr) : bool :=
  match o with
  | Some (_ :: _) => true
  | _ => false
  end.

(** [a or b] on [Optional[str]] values. *)
Definition py_or (a b : option pystr) : option pystr :=
  if truthy a then a else b.

End PyStr.
Import PyStr.

(** ** The reply splitter: reasoning extraction (lines 56-72) *)

Definition think_open : pystr := py "<think>".
Definition think_close : pystr := py "</think>".

(** [re.match(r"<think>(.*?)</think>", content, flags=re.DOTALL)], as
    [matched.group(1)].  [re.match] anchors at position 0; the lazy group
    ends at the first [</think>] after the opening tag, and with [DOTALL]
    it may span lines. *)
Definition match_think (content : pystr) : option pystr :=
  if startswith think_open content then
    match find_first think_close (skipn (length think_open) content) with
    | Some (inner, _) => Some inner
    | None => None
    end
  else None.

Definition pop_reasoning_content (content : option pystr)
  : option pystr * option pystr :=
  match content with
  | None => (None, None)
  | Some content =>
      let think_content := match_think content in
      if truthy think_content then
        match think_content with
        | Some think_content =>
            let filtered_content := strip (replace think_content [] content) in
            (Some filtered_content, Some (strip think_content))
        | None => (Some content, None)
        end
      else (Some content, None)
  end.

(** ** Bounded deques ([collections.deque] with [maxlen]) *)

Module Deque.

Record deque (A : Type) := mk { maxlen : nat; items : list A }.
Arguments mk {A} _ _.
Arguments maxlen {A} _.
Arguments items {A} _.

Section Ops.
Context {A : Type}.

(** [deque(maxlen=n)] *)
Definition empty (n : nat) : deque A := mk n [].

(** [d.append(x)]: the item goes in on the right, and when the deque
    is then longer than its bound the leftmost item is dropped. *)
Definition append (x : A) (d : deque A) : deque A :=
  let l := items d ++ [x] in
  mk (maxlen d) (if maxlen d <? length l then tail l else l).

(** [d.clear()] *)
Definition clear (d : deque A) : deque A := mk (maxlen d) [].

(** [deque(iterable, maxlen=n)]: the items are appended one by one. *)
Definition of_list (l : list A) (n : nat) : deque A :=
  fold_left (fun d x => append x d) l (empty n).

(** The bound a deque object keeps. *)
Definition wf (d : deque A) : Prop := length (items d) <= maxlen d.
End Ops.

End Deque.

(** ** Turns, configuration, responses *)

(** A history entry, the dict [{"role": ..., "content": ...}]. *)
Record Turn := mkTurn { role : pystr; content : pystr }.

Definition role_system : pystr := py "system".
Definition role_user : pystr := py "user".
Definition role_assistant : pystr := py "assistant".

(** [PresetConfig] of the [config] module; the endpoint, key and sampling
    fields only parameterise the request sent to the backend. *)
Record PresetConfig := mkPreset { name : pystr; model_name : pystr }.

(** The fields of [plugin_config] the pipeline reads. *)
Record Config := mkConfig {
  api_presets : list PresetConfig;
  default_preset : pystr;
  history_size : nat;
  past_events_size : nat;
  random_trigger_prob : Q;
  default_prompt : pystr
}.

(** [response.choices[i].message]: the text and, on backends that send it,
    the out-of-band [reasoning_content] attribute. *)
Record ChatMessage := mkMessage {
  msg_content : option pystr;
  msg_reasoning_content : option pystr
}.

Record ChatCompletion := mkCompletion { choices : list ChatMessage }.

(** How [client.chat.completions.create] ends: with a response, or with
    an exception [e] of which [str(e)] is kept. *)
Inductive model_result :=
| ModelOk (response : ChatCompletion)
| ModelErr (e : pystr).

(** [list(history)[-n:]]; with [n = 0] the slice [[-0:]] is the whole list. *)
Definition window {A : Type} (n : nat) (l : list A) : list A :=
  match n with
  | O => l
  | _ => skipn (length l - n) l
  end.

Definition botbr : pystr := py "<botbr>".

(** "服务暂时不可用，请稍后再试\n" *)
Definition unavailable : pystr :=
  [26381; 21153; 26242; 26102; 19981; 21487; 29992; 65292;
   35831; 31245; 21518; 20877; 35797; 10]%N.

(** [f"服务暂时不可用，请稍后再试\n{e!s}"] *)
Definition failure_message (e : pystr) : pystr := unavailable ++ e.

(** [str(IndexError)] of [response.choices[0]] on an empty list, and
    [str(AssertionError())]. *)
Definition index_error : pystr := py "list index out of range".
Definition assertion_error : pystr := [].

(** What a statement of the program comes to in this model: a value;
    an exception; or a value that the program computes and the model has
    no type for (a JSON value of another shape than [save_state] writes,
    which [load_state] stores as it is; a digit of another script, which
    [int] reads when the Unicode tables of the interpreter know it). *)
Inductive evaluated (A : Type) :=
| Value (a : A)
| Raises
| Untyped.
Arguments Value {A} a.
Arguments Raises {A}.
Arguments Untyped {A}.

(** ** Group state and the transition system of one group *)

Section Pipeline.

(** The adapter's [GroupMessageEvent], its [is_tome()] predicate, and the
    rendering [format_message] (lines 101-127), which goes through the
    adapter's message segments, [json.dumps] and [datetime]. *)
Variable Event : Type.
Variable is_tome : Event -> bool.
Variable format_message : Event -> pystr.

Variable plugin_config : Config.

(** The fixed operating instructions of lines 194-206, with the bot's
    nicknames already spliced in. *)
Variable instructions : pystr.

(** [class GroupState] (lines 76-85).  [queue] is the [asyncio.Queue],
    oldest item first; its [task_done] counter is read by nothing in
    the program and is left out. *)
Record GroupState := mkGroupState {
  preset_name : pystr;
  history : Deque.deque Turn;
  queue : list Event;
  processing : bool;
  last_active : Q;
  past_events : Deque.deque Event;
  group_prompt : option pystr;
  output_reasoning_content : bool
}.

(** [GroupState()], with [now] the value of [time.time()]. *)
Definition GroupState_init (now : Q) : GroupState :=
  {| preset_name := default_preset plugin_config;
     history := Deque.empty (history_size plugin_config);
     queue := [];
     processing := false;
     last_active := now;
     past_events := Deque.empty (past_events_size plugin_config);
     group_prompt := None;
     output_reasoning_content := false |}.

Definition set_preset_name (v : pystr) (st : GroupState) : GroupState :=
  mkGroupState v (history st) (queue st) (processing st) (last_active st)
    (past_events st) (group_prompt st) (output_reasoning_content st).
Definition set_history (v : Deque.deque Turn) (st : GroupState)
  : GroupState :=
  mkGroupState (preset_name st) v (queue st) (processing st)
    (last_active st) (past_events st) (group_prompt st)
    (output_reasoning_content st).
Definition set_queue (v : list Event) (st : GroupState) : GroupState :=
  mkGroupState (preset_name st) (history st) v (processing st)
    (last_active st) (past_events st) (group_prompt st)
    (output_reasoning_content st).
Definition set_processing (v : bool) (st : GroupState) : GroupState :=
  mkGroupState (preset_name st) (history st) (queue st) v (last_active st)
    (past_events st) (group_prompt st) (output_reasoning_content st).
Definition set_last_active (v : Q) (st : GroupState) : GroupState :=
  mkGroupState (preset_name st) (history st) (queue st) (processing st) v
    (past_events st) (group_prompt st) (output_reasoning_content st).
Definition set_past_events (v : Deque.deque Event) (st : GroupState)
  : GroupState :=
  mkGroupState (preset_name st) (history st) (queue st) (processing st)
    (last_active st) v (group_prompt st) (output_reasoning_content st).
Definition set_group_prompt (v : option pystr) (st : GroupState)
  : GroupState :=
  mkGroupState (preset_name st) (history st) (queue st) (processing st)
    (last_active st) (past_events st) v (output_reasoning_content st).
Definition set_output_reasoning_content (v : bool) (st : GroupState)
  : GroupState :=
  mkGroupState (preset_name st) (history st) (queue st) (processing st)
    (last_active st) (past_events st) (group_prompt st) v.

(** [get_preset] (lines 92-97); [None] is the [IndexError] of
    [api_presets[0]] on an empty preset list. *)
Definition get_preset (st : GroupState) : option PresetConfig :=
  match
    List.find (fun preset => str_eqb (name preset) (preset_name st))
      (api_presets plugin_config)
  with
  | Some preset => Some preset
  | None => List.head (api_presets plugin_config)
  end.

(** *** Admission and dispatch *)

Definition off : pystr := py "off".

Definition Qlt_bool (a b : Q) : bool := negb (Qle_bool b a).

(** [is_triggered] (lines 130-148): the rule's verdict and the state it
    leaves.  [rnd] is the value drawn by [random.random()]. *)
Definition is_triggered (st : GroupState) (event : Event) (rnd : Q)
  : bool * GroupState :=
  if str_eqb (preset_name st) off then (false, st)
  else
    let st := set_past_events (Deque.append event (past_events st)) st in
    if is_tome event then (true, st)
    else if Qlt_bool rnd (random_trigger_prob plugin_config)
         then (true, st)
         else (false, st).

(** Where a worker coroutine is suspended. *)
Inductive pc :=
| PcStart
    (* created by [asyncio.create_task], not yet run *)
| PcModel (messages : list Turn) (content : pystr)
    (* in [client.chat.completions.create], called with [messages]
       followed by the user turn [content] *)
| PcSendReasoning (reply : option pystr)
    (* in [handler.send(Message(reasoning_content))] *)
| PcSleep (r : pystr) (rest : list pystr) (reply : pystr)
    (* in [asyncio.sleep(2)], before segment [r] is sent *)
| PcSendSeg (rest : list pystr) (reply : pystr)
    (* in [handler.send(Message(r))] *)
| PcSendFail.
    (* in the [handler.send] of the [except] suite *)

(** One group: its [GroupState], the live [process_messages] tasks, and
    the texts handed to [handler.send], oldest first. *)
Record sys := mkSys {
  gstate : GroupState;
  tasks : list pc;
  outbox : list pystr
}.

(** [handle_message] (lines 159-173).  [Queue.put] on an unbounded queue
    does not suspend, so the handler is one atomic block. *)
Definition handle_message (s : sys) (event : Event) : sys :=
  let st := gstate s in
  let st := set_queue (queue st ++ [event]) st in
  if negb (processing st)
  then mkSys (set_processing true st) (tasks s ++ [PcStart]) (outbox s)
  else mkSys st (tasks s) (outbox s).

(** The matcher [on_message(rule=Rule(is_triggered))]: the handler runs
    only for an event the rule accepts. *)
Definition on_message (s : sys) (event : Event) (rnd : Q) : sys :=
  let '(triggered, st) := is_triggered (gstate s) event rnd in
  let s := mkSys st (tasks s) (outbox s) in
  if triggered then handle_message s event else s.

(** *** The worker, [process_messages] (lines 176-282) *)

(** How an atomic block of the worker ends. *)
Inductive wout :=
| Suspended (at_ : pc)
| Finished.

(** The result of one atomic block: the state, the text handed to
    [handler.send] by the block (if any), and where the worker is. *)
Record segment := mkSegment {
  seg_state : GroupState;
  seg_sent : list pystr;
  seg_next : wout
}.

(** [state.group_prompt or plugin_config.default_prompt] inside the
    f-string of the system prompt. *)
Definition systemPrompt (st : GroupState) : pystr :=
  instructions
  ++ match py_or (group_prompt st) (Some (default_prompt plugin_config)) with
     | Some p => p
     | None => []
     end
  ++ py (String (ascii_of_nat 10) EmptyString).

(** From the loop test (line 190) to the model call (line 226). *)
Definition loop_head (st : GroupState) : segment :=
  match queue st with
  | [] =>
      (* the loop ends; line 282 *)
      mkSegment (set_processing false st) [] Finished
  | event :: q =>
      let st := set_queue q st in
      let messages :=
        mkTurn role_system (systemPrompt st)
        :: window (history_size plugin_config) (Deque.items (history st)) in
      if length (Deque.items (past_events st)) <? 1 then
        (* [break], then line 282 *)
        mkSegment (set_processing false st) [] Finished
      else
        let content :=
          join (py ",") (map format_message (Deque.items (past_events st))) in
        mkSegment st [] (Suspended (PcModel messages content))
  end.

(** The [except] suite (lines 276-278) up to its [handler.send]. *)
Definition report_failure (st : GroupState) (e : pystr) : segment :=
  mkSegment st [failure_message e] (Suspended PcSendFail).

(** The [for] loop over [reply.split("<botbr>")] (lines 256-266), then
    line 269 and the next loop test. *)
Fixpoint send_segments (st : GroupState) (pieces : list pystr)
    (reply : pystr) : segment :=
  match pieces with
  | [] =>
      loop_head
        (set_history
           (Deque.append (mkTurn role_assistant reply) (history st)) st)
  | r :: rest =>
      if (length r =? 0) || isspace r
      then send_segments st rest reply
      else mkSegment st [] (Suspended (PcSleep (strip r) rest reply))
  end.

(** From [assert reply is not None] (line 252) on. *)
Definition after_reasoning (st : GroupState) (reply : option pystr)
  : segment :=
  match reply with
  | None => report_failure st assertion_error
  | Some reply => send_segments st (split botbr reply) reply
  end.

(** From the return of the model call (line 226) on. *)
Definition on_model_result (st : GroupState) (content : pystr)
    (result : model_result) : segment :=
  match result with
  | ModelErr e => report_failure st e
  | ModelOk response =>
      let st :=
        set_history (Deque.append (mkTurn role_user content) (history st))
          st in
      let st := set_past_events (Deque.clear (past_events st)) st in
      match choices response with
      | [] => report_failure st index_error
      | message :: _ =>
          let '(reply, matched_reasoning_content) :=
            pop_reasoning_content (msg_content message) in
          let reasoning_content :=
            py_or (msg_reasoning_content message)
              matched_reasoning_content in
          if output_reasoning_content st && truthy reasoning_content then
            mkSegment st
              match reasoning_content with Some t => [t] | None => [] end
              (Suspended (PcSendReasoning reply))
          else after_reasoning st reply
      end
  end.

(** What wakes a suspended worker. *)
Inductive wake :=
| Scheduled
| ModelDone (result : model_result)
| SendDone
| SleepDone.

(** The atomic block a worker at [p] runs when woken by [k]; [None]
    when [k] is not what the worker waits for. *)
Definition resume (p : pc) (k : wake) (st : GroupState) : option segment :=
  match p, k with
  | PcStart, Scheduled =>
      match get_preset st with
      | None => Some (mkSegment st [] Finished)  (* dies on [IndexError] *)
      | Some _ => Some (loop_head st)
      end
  | PcModel _ content, ModelDone result =>
      Some (on_model_result st content result)
  | PcSendReasoning reply, SendDone => Some (after_reasoning st reply)
  | PcSleep r rest reply, SleepDone =>
      Some (mkSegment st [r] (Suspended (PcSendSeg rest reply)))
  | PcSendSeg rest reply, SendDone => Some (send_segments st rest reply)
  | PcSendFail, SendDone => Some (loop_head st)
  | _, _ => None
  end.

(** *** The administrative handlers (lines 285-361) *)

(** [handle_preset]; [arg] is [args.extract_plain_text()]. *)
Definition handle_preset (st : GroupState) (arg : pystr) : GroupState :=
  let preset_name := strip arg in
  if str_eqb preset_name off then set_preset_name preset_name st
  else if existsb (fun p => str_eqb preset_name (name p))
            (api_presets plugin_config)
       then set_preset_name preset_name st
       else st.

Definition handle_edit_preset (st : GroupState) (arg : pystr)
  : GroupState :=
  set_group_prompt (Some (strip arg)) st.

Definition handle_reset (st : GroupState) : GroupState :=
  let st := set_past_events (Deque.clear (past_events st)) st in
  set_history (Deque.clear (history st)) st.

Definition handle_think (st : GroupState) : GroupState :=
  set_output_reasoning_content (negb (output_reasoning_content st)) st.

(** *** Runs *)

Inductive label :=
| Inbound (event : Event) (rnd : Q)
| CmdPreset (arg : pystr)
| CmdEditPreset (arg : pystr)
| CmdReset
| CmdThink
| Wake (w : nat) (k : wake).

Definition with_gstate (f : GroupState -> GroupState) (s : sys) : sys :=
  mkSys (f (gstate s)) (tasks s) (outbox s).

(** The effect of an atomic block of worker [w] on the group. *)
Definition apply_segment (s : sys) (w : nat) (seg : segment) : sys :=
  mkSys (seg_state seg)
    match seg_next seg with
    | Suspended p' => <[w := p']> (tasks s)
    | Finished => delete w (tasks s)
    end
    (outbox s ++ seg_sent seg).

(** One transition; [None] when the label names no suspended worker or
    a wake-up that worker does not wait for. *)
Definition step (l : label) (s : sys) : option sys :=
  match l with
  | Inbound event rnd => Some (on_message s event rnd)
  | CmdPreset arg => Some (with_gstate (fun st => handle_preset st arg) s)
  | CmdEditPreset arg =>
      Some (with_gstate (fun st => handle_edit_preset st arg) s)
  | CmdReset => Some (with_gstate handle_reset s)
  | CmdThink => Some (with_gstate handle_think s)
  | Wake w k =>
      match tasks s !! w with
      | None => None
      | Some p =>
          match resume p k (gstate s) with
          | None => None
          | Some seg => Some (apply_segment s w seg)
          end
      end
  end.

Fixpoint run (tr : list label) (s : sys) : option sys :=
  match tr with
  | [] => Some s
  | l :: tr' =>
      match step l s with
      | Some s' => run tr' s'
      | None => None
      end
  end.

(** A group as [group_states[group_id]] first yields it, with no worker. *)
Definition init_sys (now : Q) : sys := mkSys (GroupState_init now) [] [].

(** ** Snapshots (lines 372-408) *)

(** The value [json.dumps] writes and [json.loads] gives back.  The text
    of the file and its encoding are the [json] module's and are not
    modelled. *)
Inductive json :=
| JNull
| JBool (b : bool)
| JNumber (q : Q)
| JString (s : pystr)
| JArray (elements : list json)
| JObject (members : list (pystr * json)).

(** [str(n)] of an [int], which [json.dumps] uses for an [int] key. *)
Fixpoint digits (u : Decimal.uint) : pystr :=
  match u with
  | Decimal.Nil => []
  | Decimal.D0 u => 48%N :: digits u
  | Decimal.D1 u => 49%N :: digits u
  | Decimal.D2 u => 50%N :: digits u
  | Decimal.D3 u => 51%N :: digits u
  | Decimal.D4 u => 52%N :: digits u
  | Decimal.D5 u => 53%N :: digits u
  | Decimal.D6 u => 54%N :: digits u
  | Decimal.D7 u => 55%N :: digits u
  | Decimal.D8 u => 56%N :: digits u
  | Decimal.D9 u => 57%N :: digits u
  end.

Definition str_of_int (n : Z) : pystr :=
  match Z.to_int n with
  | Decimal.Pos u => digits u
  | Decimal.Neg u => 45%N :: digits u
  end.

Definition digit_of (c : char) : option (Decimal.uint -> Decimal.uint) :=
  match c with
  | 48%N => Some Decimal.D0
  | 49%N => Some Decimal.D1
  | 50%N => Some Decimal.D2
  | 51%N => Some Decimal.D3
  | 52%N => Some Decimal.D4
  | 53%N => Some Decimal.D5
  | 54%N => Some Decimal.D6
  | 55%N => Some Decimal.D7
  | 56%N => Some Decimal.D8
  | 57%N => Some Decimal.D9
  | _ => None
  end.

(** The digits of an [int] literal: single underscores are allowed
    between digits.  [after_digit] tells whether the previous character
    was a digit. *)
Fixpoint parse_digits (s : pystr) (after_digit : bool)
  : option Decimal.uint :=
  match s with
  | [] => if after_digit then Some Decimal.Nil else None
  | c :: s' =>
      if (c =? 95)%N then
        if after_digit then parse_digits s' false else None
      else
        match digit_of c with
        | Some d => d <$> parse_digits s' true
        | None => None
        end
  end.

(** A statement that may raise: an exception ends the block. *)
Local Notation "'try' x ':=' e 'in' k" :=
  (match e with Value x => k | Raises => Raises | Untyped => Untyped end)
  (at level 10, x name, e at level 100, k at level 200, only parsing).

(** The whitespace [int] skips at either end of a [str]: the six ASCII
    characters of C's [isspace], and the whitespace beyond ASCII (which
    [int] first turns into spaces).  U+001C to U+001F, which [str.strip]
    removes, are not among them. *)
Definition int_space (c : char) : bool :=
  ((9 <=? c) && (c <=? 13) || (c =? 32)
   || (127 <=? c) && is_whitespace c)%N.

(** A character beyond ASCII that is no whitespace: [int] reads it as a
    digit when it is a decimal digit of some script, which depends on the
    Unicode tables of the interpreter. *)
Definition maybe_digit (c : char) : bool :=
  ((128 <=? c) && negb (is_whitespace c))%N.

Fixpoint lstrip_where (p : char -> bool) (s : pystr) : pystr :=
  match s with
  | c :: s' => if p c then lstrip_where p s' else s
  | [] => []
  end.

Definition strip_where (p : char -> bool) (s : pystr) : pystr :=
  rev (lstrip_where p (rev (lstrip_where p s))).

(** [int(s)] for a [str], in base ten: whitespace at the ends, one sign,
    digits with single underscores between them; anything else is
    [ValueError].  A text with a character that may be a digit of another
    script is left [Untyped].  (The interpreter's limit on the length of
    the text, [sys.set_int_max_str_digits], is not modelled.) *)
Definition int_of_str (s : pystr) : evaluated Z :=
  if existsb maybe_digit s then Untyped
  else
    let number sign r :=
      match parse_digits r false with
      | Some u => Value (Z.of_int (sign u))
      | None => Raises
      end in
    match strip_where int_space s with
    | 45%N :: r => number Decimal.Neg r
    | 43%N :: r => number Decimal.Pos r
    | r => number Decimal.Pos r
    end.

(** [d[key]] on a dict with [str] keys; [None] is [KeyError]. *)
Fixpoint member (key : pystr) (members : list (pystr * json))
  : option json :=
  match members with
  | [] => None
  | (k, v) :: rest => if str_eqb k key then Some v else member key rest
  end.

(** [d[key] = v] on a dict: a key that is there keeps its place. *)
Fixpoint dict_set (key : pystr) (v : json) (d : list (pystr * json))
  : list (pystr * json) :=
  match d with
  | [] => [(key, v)]
  | (k, v') :: rest =>
      if str_eqb k key then (k, v) :: rest else (k, v') :: dict_set key v rest
  end.

(** The dict [json.loads] builds from the members of an object: of a
    repeated key, the first place and the last value. *)
Definition py_dict (members : list (pystr * json)) : list (pystr * json) :=
  fold_left (fun d '(k, v) => dict_set k v d) members [].

(** The shapes [save_state] writes, which are the types of the fields of
    a [GroupState]; [None] is any other shape. *)
Definition as_str (j : json) : option pystr :=
  match j with JString s => Some s | _ => None end.
Definition as_optional_str (j : json) : option (option pystr) :=
  match j with JNull => Some None | JString s => Some (Some s) | _ => None end.
Definition as_bool (j : json) : option bool :=
  match j with JBool b => Some b | _ => None end.
Definition as_number (j : json) : option Q :=
  match j with JNumber q => Some q | _ => None end.

Definition turn_to_json (t : Turn) : json :=
  JObject [(py "role", JString (role t)); (py "content", JString (content t))].

(** A turn as [save_state] writes it: the two keys, in this order, with
    texts as values. *)
Definition turn_of_json (j : json) : option Turn :=
  match j with
  | JObject [(k1, JString r); (k2, JString c)] =>
      if str_eqb k1 (py "role") && str_eqb k2 (py "content")
      then Some (mkTurn r c)
      else None
  | _ => None
  end.

Fixpoint turns_of_json (l : list json) : option (list Turn) :=
  match l with
  | [] => Some []
  | j :: l' =>
      match turn_of_json j, turns_of_json l' with
      | Some t, Some ts => Some (t :: ts)
      | _, _ => None
      end
  end.

(** One value of the dict comprehension of [save_state]. *)
Definition state_to_json (state : GroupState) : json :=
  JObject
    [(py "preset", JString (preset_name state));
     (py "history", JArray (map turn_to_json (Deque.items (history state))));
     (py "last_active", JNumber (last_active state));
     (py "group_prompt",
       match group_prompt state with Some p => JString p | None => JNull end);
     (py "output_reasoning_content",
       JBool (output_reasoning_content state))].

(** [save_state]: the document written to the data file. *)
Definition save_state (group_states : gmap Z GroupState) : json :=
  JObject
    (map (fun '(gid, state) => (str_of_int gid, state_to_json state))
       (map_to_list group_states)).

(** [state_data[key]]: a [TypeError] when [state_data] is no dict, a
    [KeyError] when the key is missing. *)
Definition subscript (state_data : json) (key : pystr) : evaluated json :=
  match state_data with
  | JObject m =>
      match member key (py_dict m) with
      | Some v => Value v
      | None => Raises
      end
  | _ => Raises
  end.

(** [deque(v, maxlen=n)]: a [TypeError] when [v] cannot be iterated (a
    number, a boolean, [null]); the characters of a text and the keys of
    an object are no turns. *)
Definition deque_of_json (v : json) (n : nat)
  : evaluated (option (Deque.deque Turn)) :=
  match v with
  | JArray l =>
      Value ((fun saved => Deque.of_list saved n) <$> turns_of_json l)
  | JString _ | JObject _ => Value None
  | _ => Raises
  end.

(** [state.field = v]: [state] is [None] once a field holds a value of
    another shape than its type. *)
Definition assign {A : Type} (read : json -> option A)
    (set : A -> GroupState -> GroupState) (v : json)
    (state : option GroupState) : option GroupState :=
  match state, read v with
  | Some state, Some a => Some (set a state)
  | _, _ => None
  end.

(** The body of the [for] loop of [load_state] (lines 400-408), up to the
    key and the state it stores. *)
Definition load_entry (now : Q) (gid : pystr) (state_data : json)
  : evaluated (Z * GroupState) :=
  let state := Some (GroupState_init now) in
  try preset := subscript state_data (py "preset") in
  let state := assign as_str set_preset_name preset state in
  try saved := subscript state_data (py "history") in
  try saved := deque_of_json saved (history_size plugin_config) in
  let state :=
    match state, saved with
    | Some state, Some saved => Some (set_history saved state)
    | _, _ => None
    end in
  try active := subscript state_data (py "last_active") in
  let state := assign as_number set_last_active active state in
  try prompt := subscript state_data (py "group_prompt") in
  let state := assign as_optional_str set_group_prompt prompt state in
  try flag := subscript state_data (py "output_reasoning_content") in
  let state := assign as_bool set_output_reasoning_content flag state in
  try key := int_of_str gid in
  match state with
  | Some state => Value (key, state)
  | None => Untyped
  end.

(** How [load_state] ends: it returns, it raises, or it goes on with a
    state the model has no type for. *)
Inductive outcome := Returned | Raised | Unknown.

(** [load_state]: [file] is the parsed data file, [None] when it does not
    exist.  The groups stored before a statement raises stay stored. *)
Definition load_state (now : Q) (file : option json)
    (group_states : gmap Z GroupState) : gmap Z GroupState * outcome :=
  match file with
  | None => (group_states, Returned)
  | Some (JObject data) =>
      fold_left
        (fun acc '(gid, state_data) =>
           match acc with
           | (gs, Returned) =>
               match load_entry now gid state_data with
               | Value (key, state) => (<[key := state]> gs, Returned)
               | Raises => (gs, Raised)
               | Untyped => (gs, Unknown)
               end
           | _ => acc
           end)
        (py_dict data) (group_states, Returned)
  | Some _ => (group_states, Raised)
  end.

(** ** Predicates of the statements *)

(** The role of the newest turn. *)
Definition last_role (l : list Turn) : option pystr := role <$> last l.

(** No two neighbouring turns carry the same role. *)
Fixpoint alternating (l : list Turn) : bool :=
  match l with
  | a :: (b :: _) as rest => negb (str_eqb (role a) (role b)) && alternating rest
  | _ => true
  end.

(** The model call is answered, and the answer carries a text. *)
Definition has_reply (result : model_result) : bool :=
  match result with
  | ModelOk response =>
      match choices response with
      | message :: _ => bool_decide (is_Some (msg_content message))
      | [] => false
      end
  | ModelErr _ => false
  end.

(** A label of a run in which every batch is a successful one. *)
Definition successful (l : label) : bool :=
  match l with
  | Wake _ (ModelDone result) => has_reply result
  | _ => true
  end.

(** The texts the [for] loop of lines 256-266 sends for [pieces]. *)
Definition outbound_segments (pieces : list pystr) : list pystr :=
  map strip
    (List.filter (fun r => negb ((length r =? 0) || isspace r)) pieces).

(** Both deques of a group carry the configured bounds and respect them. *)
Definition bounded (st : GroupState) : Prop :=
  Deque.maxlen (history st) = history_size plugin_config
  /\ Deque.maxlen (past_events st) = past_events_size plugin_config
  /\ Deque.wf (history st) /\ Deque.wf (past_events st).

(** Single flight: at most one worker, and none while [processing] is
    false. *)
Definition single_flight (s : sys) : Prop :=
  length (tasks s) <= 1 /\ (processing (gstate s) = false -> tasks s = []).

(** What an atomic block of the worker does to the [processing] flag and
    where it may end: a block that suspends leaves the flag alone; a block
    that ends the coroutine clears it, and ends with an empty queue (the
    loop test) or with no pending events (the [break] of line 218). *)
Definition block_ok (st : GroupState) (seg : segment) : Prop :=
  match seg_next seg with
  | Suspended _ => processing (seg_state seg) = processing st
  | Finished =>
      processing (seg_state seg) = false
      /\ (queue (seg_state seg) = []
          \/ Deque.items (past_events (seg_state seg)) = [])
  end.

(** With a preset configured, the flag is set exactly while a worker
    lives. *)
Definition flag_exact (s : sys) : Prop :=
  single_flight s /\ (tasks s = [] -> processing (gstate s) = false).

(** The arrival of an event, as opposed to a command or a wake-up. *)
Definition is_inbound (l : label) : bool :=
  match l with Inbound _ _ => true | _ => false end.

(** The arrival of [a.1], with [a.2] the number drawn for it. *)
Definition arrival (a : Event * Q) : label := Inbound a.1 a.2.

(** The wake-ups that carry a worker through the delivery of a reply:
    the end of the send of the reasoning when one is emitted, then for
    each segment the end of the pause and the end of its send. *)
Definition delivery (w : nat) (emitted segs : list pystr) : list label :=
  map (fun _ => Wake w SendDone) emitted
  ++ flat_map (fun _ => [Wake w SleepDone; Wake w SendDone]) segs.

(** What the history must look like for a worker suspended at [p]
    ([None]: no worker): between the two appends of a batch the newest
    turn is not an assistant turn, anywhere else it is not a user turn. *)
Definition expects (p : option pc) (h : list Turn) : Prop :=
  match p with
  | Some (PcSendReasoning None) => False
  | Some (PcSendReasoning (Some _))
  | Some (PcSleep _ _ _)
  | Some (PcSendSeg _ _) => last_role h <> Some role_assistant
  | _ => last_role h <> Some role_user
  end.

(** Where an atomic block leaves its worker ([None]: ended). *)
Definition next_pc (seg : segment) : option pc :=
  match seg_next seg with
  | Suspended p => Some p
  | Finished => None
  end.

(** The history after an atomic block, and what the worker then expects
    of it. *)
Definition segment_inv (seg : segment) : Prop :=
  alternating (Deque.items (history (seg_state seg))) = true
  /\ expects (next_pc seg) (Deque.items (history (seg_state seg))).

(** The invariant of runs of successful batches. *)
Definition history_inv (s : sys) : Prop :=
  single_flight s
  /\ alternating (Deque.items (history (gstate s))) = true
  /\ expects (head (tasks s)) (Deque.items (history (gstate s))).

(** Every turn is a user turn or an assistant turn. *)
Definition dialogue (l : list Turn) : Prop :=
  Forall (fun t => role t = role_user \/ role t = role_assistant) l.

(** ['0'] to ['9']. *)
Definition is_digit (c : char) : bool := (48 <=? c)%N && (c <=? 57)%N.

(** The state [load_state] builds from what [save_state] wrote for
    [state]. *)
Definition reloaded (now : Q) (state : GroupState) : GroupState :=
  mkGroupState (preset_name state)
    (Deque.of_list (Deque.items (history state)) (history_size plugin_config))
    [] false (last_active state)
    (Deque.empty (past_events_size plugin_config))
    (group_prompt state) (output_reasoning_content state).

(** A command of an administrator, as opposed to an arrival or a
    wake-up. *)
Definition is_command (l : label) : bool :=
  match l with
  | CmdPreset _ | CmdEditPreset _ | CmdReset | CmdThink => true
  | _ => false
  end.


(** The model calls that return in a run. *)
Definition is_model_return (l : label) : bool :=
  match l with Wake _ (ModelDone _) => true | _ => false end.

(** A worker that is inside a model call. *)
Definition in_call (p : pc) : nat :=
  match p with PcModel _ _ => 1 | _ => 0 end.

(** The model calls a group can still make without a new submission: one
    for each queued event, and the calls in flight. *)
Definition budget (s : sys) : nat :=
  length (queue (gstate s)) + list_sum (map in_call (tasks s)).

(** What an atomic block leaves of the queue, counting the call it may
    have started, is at most what it found. *)
Definition block_budget (st : GroupState) (seg : segment) : Prop :=
  length (queue (seg_state seg))
  + match seg_next seg with Suspended p => in_call p | Finished => 0 end
  <= length (queue st).



(** * Facts *)

(** ** The reply splitter *)

(** C10: a response that begins with an empty [<think></think>] block
    yields no reasoning, and its text comes back unchanged, tags
    included. *)
Theorem pop_reasoning_content_empty_think (rest : pystr) :
  pop_reasoning_content (Some (py "<think></think>" ++ rest))
  = (Some (py "<think></think>" ++ rest), None).
Proof. reflexivity. Qed.

(** C1, at the example of the specification: the inner text is returned as
    reasoning, but only that inner text is cut out of the reply, so both
    tags stay in the visible text. *)
Theorem pop_reasoning_content_keeps_tags :
  pop_reasoning_content (Some (py "<think>plan</think>Hello<botbr>World"))
  = (Some (py "<think></think>Hello<botbr>World"), Some (py "plan")).
Proof. vm_compute. reflexivity. Qed.

(** [str.replace] removes every occurrence of the inner text, also those
    in the reply proper. *)
Example pop_reasoning_content_cuts_reply :
  pop_reasoning_content (Some (py "<think>a</think>banana"))
  = (Some (py "<think></think>bnn"), Some (py "a")).
Proof. vm_compute. reflexivity. Qed.

(** ** Bounded deques *)

Lemma deque_append_maxlen {A : Type} (x : A) (d : Deque.deque A) :
  Deque.maxlen (Deque.append x d) = Deque.maxlen d.
Proof. reflexivity. Qed.

Lemma deque_append_wf {A : Type} (x : A) (d : Deque.deque A) :
  Deque.wf d -> Deque.wf (Deque.append x d).
Proof.
  unfold Deque.wf, Deque.append; simpl; intros Hd.
  destruct (Nat.ltb_spec (Deque.maxlen d) (length (Deque.items d ++ [x])))
    as [Hlt | Hge]; [|exact Hge].
  rewrite length_app in Hlt; simpl in Hlt.
  destruct (Deque.items d ++ [x]) as [|y l] eqn:E; simpl; [lia|].
  apply (f_equal length) in E. rewrite length_app in E; simpl in E. lia.
Qed.

Lemma deque_clear_wf {A : Type} (d : Deque.deque A) : Deque.wf (Deque.clear d).
Proof. unfold Deque.wf; simpl; lia. Qed.

(** An append keeps the newest [maxlen] items of what it is given. *)
Lemma deque_append_items {A : Type} (x : A) (d : Deque.deque A) :
  Deque.wf d ->
  Deque.items (Deque.append x d)
  = skipn (length (Deque.items d ++ [x]) - Deque.maxlen d)
      (Deque.items d ++ [x]).
Proof.
  unfold Deque.wf, Deque.append; simpl; intros Hd.
  rewrite length_app; simpl.
  destruct (Nat.ltb_spec (Deque.maxlen d) (length (Deque.items d) + 1))
    as [Hlt | Hge].
  - replace (length (Deque.items d) + 1 - Deque.maxlen d) with 1 by lia.
    now destruct (Deque.items d ++ [x]).
  - replace (length (Deque.items d) + 1 - Deque.maxlen d) with 0 by lia.
    reflexivity.
Qed.

Lemma deque_fold_append {A : Type} (l : list A) (d : Deque.deque A) :
  Deque.wf d ->
  let d' := fold_left (fun d x => Deque.append x d) l d in
  Deque.wf d' /\ Deque.maxlen d' = Deque.maxlen d
  /\ Deque.items d'
     = skipn (length (Deque.items d ++ l) - Deque.maxlen d)
         (Deque.items d ++ l).
Proof.
  revert d. induction l as [|x l IH]; intros d Hd; simpl.
  - split; [exact Hd|]. split; [reflexivity|].
    rewrite app_nil_r. unfold Deque.wf in Hd.
    now replace (length (Deque.items d) - Deque.maxlen d) with 0 by lia.
  - destruct (IH (Deque.append x d) (deque_append_wf x d Hd))
      as (Hwf & Hmax & Hitems).
    split; [exact Hwf|]. split; [exact Hmax|].
    rewrite Hitems, deque_append_maxlen, (deque_append_items x d Hd).
    set (n := Deque.maxlen d). set (l0 := Deque.items d).
    assert (Hl0 : length l0 <= n) by exact Hd.
    rewrite (cons_middle x l0 l), app_assoc.
    rewrite <- (drop_app_le (l0 ++ [x]) l)
      by (rewrite length_app; simpl; lia).
    rewrite drop_drop. f_equal.
    rewrite !length_app, length_drop, !length_app; simpl. lia.
Qed.

(** [deque(saved, maxlen=n)] holds the newest [n] items of [saved]. *)
Lemma deque_of_list_spec {A : Type} (saved : list A) (n : nat) :
  Deque.wf (Deque.of_list saved n)
  /\ Deque.maxlen (Deque.of_list saved n) = n
  /\ Deque.items (Deque.of_list saved n) = skipn (length saved - n) saved.
Proof.
  unfold Deque.of_list.
  assert (H0 : Deque.wf (Deque.empty (A:=A) n)) by (unfold Deque.wf; simpl; lia).
  exact (deque_fold_append saved (Deque.empty n) H0).
Qed.

Lemma bounded_frame (st st' : GroupState) :
  history st' = history st -> past_events st' = past_events st ->
  bounded st -> bounded st'.
Proof. unfold bounded. intros -> ->. tauto. Qed.

Lemma bounded_history_append (st : GroupState) (t : Turn) :
  bounded st -> bounded (set_history (Deque.append t (history st)) st).
Proof.
  unfold bounded; simpl. intros (H1 & H2 & H3 & H4).
  auto using deque_append_wf.
Qed.

Lemma bounded_past_events_append (st : GroupState) (e : Event) :
  bounded st -> bounded (set_past_events (Deque.append e (past_events st)) st).
Proof.
  unfold bounded; simpl. intros (H1 & H2 & H3 & H4).
  auto using deque_append_wf.
Qed.

Lemma bounded_history_clear (st : GroupState) :
  bounded st -> bounded (set_history (Deque.clear (history st)) st).
Proof.
  unfold bounded; simpl. intros (H1 & H2 & H3 & H4).
  auto using deque_clear_wf.
Qed.

Lemma bounded_past_events_clear (st : GroupState) :
  bounded st -> bounded (set_past_events (Deque.clear (past_events st)) st).
Proof.
  unfold bounded; simpl. intros (H1 & H2 & H3 & H4).
  auto using deque_clear_wf.
Qed.

Lemma bounded_init (now : Q) : bounded (GroupState_init now).
Proof. unfold bounded, Deque.wf; simpl. repeat split; lia. Qed.

Create HintDb llmchat.
#[local] Hint Resolve bounded_history_append bounded_past_events_append
  bounded_history_clear bounded_past_events_clear bounded_init : llmchat.

Lemma loop_head_bounded (st : GroupState) :
  bounded st -> bounded (seg_state (loop_head st)).
Proof.
  intros Hb. unfold loop_head.
  destruct (queue st) as [|e q]; simpl.
  - revert Hb; now apply bounded_frame.
  - destruct (length _ <? 1); simpl; revert Hb; now apply bounded_frame.
Qed.

Lemma send_segments_bounded (st : GroupState) (pieces : list pystr)
    (reply : pystr) :
  bounded st -> bounded (seg_state (send_segments st pieces reply)).
Proof.
  intros Hb. induction pieces as [|r rest IH]; simpl.
  - apply loop_head_bounded; auto with llmchat.
  - destruct (_ || _); [exact IH | exact Hb].
Qed.

Lemma after_reasoning_bounded (st : GroupState) (reply : option pystr) :
  bounded st -> bounded (seg_state (after_reasoning st reply)).
Proof.
  intros Hb. destruct reply; simpl; [now apply send_segments_bounded | exact Hb].
Qed.

Lemma on_model_result_bounded (st : GroupState) (text : pystr)
    (result : model_result) :
  bounded st -> bounded (seg_state (on_model_result st text result)).
Proof.
  intros Hb. unfold on_model_result.
  destruct result as [response | e]; [|exact Hb].
  set (st' := set_past_events _ _).
  assert (Hb' : bounded st') by (subst st'; auto with llmchat).
  clearbody st'.
  destruct (choices response) as [|message ?]; [exact Hb'|].
  destruct (pop_reasoning_content _) as [reply matched].
  destruct (_ && _); [exact Hb' | now apply after_reasoning_bounded].
Qed.

Lemma resume_bounded (p : pc) (k : wake) (st : GroupState) (seg : segment) :
  resume p k st = Some seg -> bounded st -> bounded (seg_state seg).
Proof.
  intros Hr Hb.
  destruct p, k; simpl in Hr; try discriminate;
    try (injection Hr as <-);
    auto using loop_head_bounded, send_segments_bounded,
      after_reasoning_bounded, on_model_result_bounded.
  destruct (get_preset st); injection Hr as <-;
    auto using loop_head_bounded.
Qed.

Lemma is_triggered_bounded (st : GroupState) (event : Event) (rnd : Q) :
  bounded st -> bounded (is_triggered st event rnd).2.
Proof.
  intros Hb. unfold is_triggered.
  destruct (str_eqb _ _); [exact Hb|].
  destruct (is_tome event); [simpl; auto with llmchat|].
  destruct (Qlt_bool _ _); simpl; auto with llmchat.
Qed.

Lemma step_bounded (l : label) (s s' : sys) :
  bounded (gstate s) -> step l s = Some s' -> bounded (gstate s').
Proof.
  intros Hb Hs. destruct l as [event rnd | arg | arg | | | w k]; simpl in Hs.
  - injection Hs as <-. unfold on_message.
    pose proof (is_triggered_bounded (gstate s) event rnd Hb) as Ht.
    destruct (is_triggered _ _ _) as [triggered st]; simpl in Ht.
    destruct triggered; simpl; [|exact Ht].
    unfold handle_message; simpl.
    destruct (negb _); simpl; revert Ht; now apply bounded_frame.
  - injection Hs as <-. simpl. unfold handle_preset.
    destruct (str_eqb _ _); [revert Hb; now apply bounded_frame|].
    destruct (existsb _ _); [revert Hb; now apply bounded_frame | exact Hb].
  - injection Hs as <-. simpl. revert Hb; now apply bounded_frame.
  - injection Hs as <-. simpl. unfold handle_reset. auto with llmchat.
  - injection Hs as <-. simpl. revert Hb; now apply bounded_frame.
  - destruct (tasks s !! w) as [p|]; [|discriminate].
    destruct (resume p k (gstate s)) as [seg|] eqn:Hr; [|discriminate].
    injection Hs as <-. simpl. eauto using resume_bounded.
Qed.

Lemma run_bounded (tr : list label) (s s' : sys) :
  bounded (gstate s) -> run tr s = Some s' -> bounded (gstate s').
Proof.
  revert s. induction tr as [|l tr IH]; intros s Hb Hr; simpl in Hr.
  - now injection Hr as <-.
  - destruct (step l s) as [s1|] eqn:Hs; [|discriminate].
    eauto using step_bounded.
Qed.

Lemma deque_of_json_of_list (v : json) (n : nat) (d : Deque.deque Turn) :
  deque_of_json v n = Value (Some d) -> exists l, d = Deque.of_list l n.
Proof.
  destruct v; simpl; try discriminate.
  destruct (turns_of_json elements) as [l|]; simpl; [|discriminate].
  intros [= <-]. eauto.
Qed.

(** What [load_state] stores for a record it reads. *)
Lemma load_entry_value (now : Q) (gid : pystr) (state_data : json)
    (key : Z) (state : GroupState) :
  load_entry now gid state_data = Value (key, state) ->
  exists preset saved active prompt flag,
    state
    = mkGroupState preset (Deque.of_list saved (history_size plugin_config))
        [] false active (Deque.empty (past_events_size plugin_config))
        prompt flag.
Proof.
  unfold load_entry, assign. intros H.
  destruct (subscript state_data (py "preset")) as [preset| |];
    try discriminate.
  destruct (subscript state_data (py "history")) as [saved| |];
    try discriminate.
  destruct (deque_of_json saved (history_size plugin_config))
    as [[d|]| |] eqn:Hd; try discriminate;
    destruct (subscript state_data (py "last_active")) as [active| |];
    try discriminate;
    destruct (subscript state_data (py "group_prompt")) as [prompt| |];
    try discriminate;
    destruct (subscript state_data (py "output_reasoning_content"))
      as [flag| |];
    try discriminate;
    destruct (int_of_str gid) as [k| |]; try discriminate;
    destruct (as_str preset) as [p|]; try discriminate;
    destruct (as_number active) as [a|]; try discriminate;
    destruct (as_optional_str prompt) as [g|]; try discriminate;
    destruct (as_bool flag) as [f|]; try discriminate.
  injection H as _ <-.
  apply deque_of_json_of_list in Hd as [l ->].
  now exists p, l, a, g, f.
Qed.

Lemma load_entry_bounded (now : Q) (gid : pystr) (state_data : json)
    (key : Z) (state : GroupState) :
  load_entry now gid state_data = Value (key, state) -> bounded state.
Proof.
  intros H.
  apply load_entry_value in H as (preset & saved & active & prompt & flag & ->).
  unfold bounded; simpl.
  destruct (deque_of_list_spec saved (history_size plugin_config))
    as (Hwf & Hmax & _).
  repeat split; auto. unfold Deque.wf; simpl; lia.
Qed.

(** C6: the history and the pending events never exceed the configured
    sizes.  A new [GroupState] and every state [load_state] builds are
    within the bounds; a reloaded history keeps the newest [history_size]
    turns of the saved one; every transition of a run (each insert and each
    clear among them) keeps the bounds; and an insert into a full deque
    drops the oldest item. *)
Theorem deques_stay_bounded :
  (forall now, bounded (GroupState_init now))
  /\ (forall now gid state_data key state,
        load_entry now gid state_data = Value (key, state) -> bounded state)
  /\ (forall (saved : list Turn) (n : nat),
        Deque.items (Deque.of_list saved n) = skipn (length saved - n) saved
        /\ length (Deque.items (Deque.of_list saved n)) <= n)
  /\ (forall (tr : list label) (s s' : sys),
        bounded (gstate s) -> run tr s = Some s' -> bounded (gstate s'))
  /\ (forall st,
        bounded st ->
        length (Deque.items (history st)) <= history_size plugin_config
        /\ length (Deque.items (past_events st))
           <= past_events_size plugin_config)
  /\ (forall (A : Type) (x : A) (d : Deque.deque A),
        Deque.wf d ->
        Deque.wf (Deque.append x d)
        /\ Deque.items (Deque.append x d)
           = if length (Deque.items d) <? Deque.maxlen d
             then Deque.items d ++ [x]
             else tail (Deque.items d ++ [x])).
Proof.
  split; [exact bounded_init|].
  split; [exact load_entry_bounded|].
  split.
  { intros saved n.
    destruct (deque_of_list_spec saved n) as (Hwf & Hmax & Hitems).
    split; [exact Hitems|]. unfold Deque.wf in Hwf. now rewrite Hmax in Hwf. }
  split; [exact run_bounded|].
  split.
  { intros st (H1 & H2 & H3 & H4). unfold Deque.wf in *. lia. }
  intros A x d Hd. split; [now apply deque_append_wf|].
  unfold Deque.append; simpl. rewrite length_app; simpl.
  unfold Deque.wf in Hd.
  destruct (Nat.ltb_spec (length (Deque.items d)) (Deque.maxlen d));
    destruct (Nat.ltb_spec (Deque.maxlen d) (length (Deque.items d) + 1));
    try reflexivity; lia.
Qed.

(** ** Single flight *)

Lemma block_ok_frame (st st' : GroupState) (seg : segment) :
  processing st' = processing st -> block_ok st' seg -> block_ok st seg.
Proof. unfold block_ok. intros ->. trivial. Qed.

Lemma loop_head_ok (st : GroupState) : block_ok st (loop_head st).
Proof.
  unfold block_ok, loop_head.
  destruct (queue st) as [|event q] eqn:Hq; simpl; [auto|].
  destruct (Nat.ltb_spec (length (Deque.items (past_events st))) 1); simpl;
    [|reflexivity].
  split; [reflexivity|]. right.
  destruct (Deque.items (past_events st)); [reflexivity | simpl in *; lia].
Qed.

Lemma send_segments_ok (st : GroupState) (pieces : list pystr)
    (reply : pystr) :
  block_ok st (send_segments st pieces reply).
Proof.
  induction pieces as [|r rest IH]; simpl.
  - eapply block_ok_frame; [|apply loop_head_ok]. reflexivity.
  - destruct (_ || _); [exact IH | reflexivity].
Qed.

Lemma after_reasoning_ok (st : GroupState) (reply : option pystr) :
  block_ok st (after_reasoning st reply).
Proof.
  destruct reply; simpl; [apply send_segments_ok | reflexivity].
Qed.

Lemma on_model_result_ok (st : GroupState) (text : pystr)
    (result : model_result) :
  block_ok st (on_model_result st text result).
Proof.
  unfold on_model_result. destruct result as [response | e]; [|reflexivity].
  destruct (choices response) as [|message ?]; [reflexivity|].
  destruct (pop_reasoning_content _) as [reply matched].
  destruct (_ && _); [reflexivity|].
  eapply block_ok_frame; [|apply after_reasoning_ok]. reflexivity.
Qed.

(** The one block that can end the coroutine with the flag still set is
    the start of a worker for which [get_preset] raises. *)
Lemma resume_ok (p : pc) (k : wake) (st : GroupState) (seg : segment) :
  resume p k st = Some seg ->
  block_ok st seg \/ (get_preset st = None /\ seg = mkSegment st [] Finished).
Proof.
  intros Hr.
  destruct p, k; simpl in Hr; try discriminate;
    try (injection Hr as <-; left;
         auto using loop_head_ok, send_segments_ok, after_reasoning_ok,
           on_model_result_ok; reflexivity).
  destruct (get_preset st); injection Hr as <-;
    [left; apply loop_head_ok | right; auto].
Qed.

Lemma get_preset_some (st : GroupState) :
  api_presets plugin_config <> [] -> get_preset st <> None.
Proof.
  unfold get_preset. intros Hne.
  destruct (List.find _ _); [discriminate|].
  destruct (api_presets plugin_config); [contradiction | discriminate].
Qed.

Lemma single_task (l : list pc) (w : nat) (p : pc) :
  length l <= 1 -> l !! w = Some p -> l = [p] /\ w = 0.
Proof.
  destruct l as [|q [|? ?]]; simpl; intros Hl Hw; try lia.
  - discriminate.
  - destruct w; simpl in Hw; [now injection Hw as -> | discriminate].
Qed.

Lemma is_triggered_frame (st : GroupState) (event : Event) (rnd : Q) :
  let st' := (is_triggered st event rnd).2 in
  processing st' = processing st /\ queue st' = queue st
  /\ history st' = history st /\ preset_name st' = preset_name st.
Proof.
  unfold is_triggered.
  destruct (str_eqb _ _); [simpl; auto|].
  destruct (is_tome event); [simpl; auto|].
  destruct (Qlt_bool _ _); simpl; auto.
Qed.

Lemma step_single_flight (l : label) (s s' : sys) :
  single_flight s -> step l s = Some s' -> single_flight s'.
Proof.
  unfold single_flight. intros [Hlen Hidle] Hs.
  destruct l as [event rnd | arg | arg | | | w k]; simpl in Hs.
  - injection Hs as <-. unfold on_message.
    pose proof (is_triggered_frame (gstate s) event rnd) as (Hp & _).
    destruct (is_triggered _ _ _) as [triggered st]; simpl in Hp.
    destruct triggered; simpl; [|rewrite Hp; auto].
    unfold handle_message; simpl.
    destruct (processing st) eqn:E; simpl.
    + split; [exact Hlen | intros ?; congruence].
    + rewrite Hidle by congruence. simpl. split; [lia | intros ?; congruence].
  - injection Hs as <-. simpl. split; [exact Hlen|].
    unfold handle_preset.
    destruct (str_eqb _ _); [exact Hidle|].
    destruct (existsb _ _); exact Hidle.
  - injection Hs as <-. simpl. auto.
  - injection Hs as <-. simpl. auto.
  - injection Hs as <-. simpl. auto.
  - destruct (tasks s !! w) as [p|] eqn:Hw; [|discriminate].
    destruct (resume p k (gstate s)) as [seg|] eqn:Hr; [|discriminate].
    injection Hs as <-. simpl.
    destruct (single_task _ _ _ Hlen Hw) as [Ht ->]. rewrite Ht.
    destruct (seg_next seg) as [p'|] eqn:Hn; simpl; [|auto].
    split; [lia|]. intros Hf.
    destruct (resume_ok _ _ _ _ Hr) as [Hok | [_ ->]]; [|discriminate].
    unfold block_ok in Hok. rewrite Hn in Hok.
    rewrite Hok in Hf. apply Hidle in Hf. rewrite Hf in Ht. discriminate.
Qed.

Lemma run_single_flight (tr : list label) (s s' : sys) :
  single_flight s -> run tr s = Some s' -> single_flight s'.
Proof.
  revert s. induction tr as [|l tr IH]; intros s Hb Hr; simpl in Hr.
  - now injection Hr as <-.
  - destruct (step l s) as [s1|] eqn:Hs; [|discriminate].
    eauto using step_single_flight.
Qed.

Lemma step_flag_exact (l : label) (s s' : sys) :
  api_presets plugin_config <> [] ->
  flag_exact s -> step l s = Some s' -> flag_exact s'.
Proof.
  intros Hcfg [Hsf Hex] Hs.
  split; [eauto using step_single_flight|].
  destruct Hsf as [Hlen Hidle].
  destruct l as [event rnd | arg | arg | | | w k]; simpl in Hs.
  - injection Hs as <-. unfold on_message.
    pose proof (is_triggered_frame (gstate s) event rnd) as (Hp & _).
    destruct (is_triggered _ _ _) as [triggered st]; simpl in Hp.
    destruct triggered; simpl; [|rewrite Hp; auto].
    unfold handle_message; simpl.
    destruct (processing st) eqn:E; simpl.
    + intros Ht. apply Hex in Ht. congruence.
    + intros Ht. destruct (tasks s); discriminate.
  - injection Hs as <-. simpl. unfold handle_preset.
    destruct (str_eqb _ _); [exact Hex|].
    destruct (existsb _ _); exact Hex.
  - injection Hs as <-. simpl. auto.
  - injection Hs as <-. simpl. auto.
  - injection Hs as <-. simpl. auto.
  - destruct (tasks s !! w) as [p|] eqn:Hw; [|discriminate].
    destruct (resume p k (gstate s)) as [seg|] eqn:Hr; [|discriminate].
    injection Hs as <-. simpl.
    destruct (single_task _ _ _ Hlen Hw) as [Ht ->]. rewrite Ht.
    destruct (resume_ok _ _ _ _ Hr) as [Hok | [Hnone _]];
      [|now apply get_preset_some in Hnone].
    unfold block_ok in Hok.
    destruct (seg_next seg) as [p'|]; simpl; [discriminate|].
    intros _. apply Hok.
Qed.

Lemma run_flag_exact (tr : list label) (s s' : sys) :
  api_presets plugin_config <> [] ->
  flag_exact s -> run tr s = Some s' -> flag_exact s'.
Proof.
  intros Hcfg. revert s.
  induction tr as [|l tr IH]; intros s Hb Hr; simpl in Hr.
  - now injection Hr as <-.
  - destruct (step l s) as [s1|] eqn:Hs; [|discriminate].
    eauto using step_flag_exact.
Qed.

(** C4, as the code has it.  Along every run of a group that starts idle,
    with at least one preset configured: at most one worker is alive; the
    [processing] flag is set exactly while one is; a submission therefore
    always leaves exactly one worker behind it, with the event at the end
    of the queue; and a worker only ends when the queue is empty or when
    nothing is pending (the [break] of line 218, which can leave events in
    the queue until a later submission starts the next worker). *)
Theorem single_flight_dispatch (tr : list label) (s s' : sys) :
  api_presets plugin_config <> [] ->
  tasks s = [] ->
  processing (gstate s) = false ->
  run tr s = Some s' ->
  length (tasks s') <= 1
  /\ (processing (gstate s') = true <-> tasks s' <> [])
  /\ (forall event,
        let s'' := handle_message s' event in
        length (tasks s'') = 1
        /\ processing (gstate s'') = true
        /\ queue (gstate s'') = queue (gstate s') ++ [event])
  /\ (forall w k s'',
        step (Wake w k) s' = Some s'' ->
        tasks s'' = [] ->
        queue (gstate s'') = []
        \/ Deque.items (past_events (gstate s'')) = []).
Proof.
  intros Hcfg Ht Hp Hrun.
  assert (H0 : flag_exact s).
  { unfold flag_exact, single_flight. rewrite Ht. simpl. auto with lia. }
  destruct (run_flag_exact tr s s' Hcfg H0 Hrun) as [[Hlen Hidle] Hex].
  split; [exact Hlen|]. split.
  { split.
    - intros Hf Hn. apply Hex in Hn. congruence.
    - intros Hn. destruct (processing (gstate s')); [reflexivity|].
      now elim Hn; apply Hidle. }
  split.
  - intros event. unfold handle_message; simpl.
    destruct (processing (gstate s')) eqn:E; simpl.
    + repeat split; auto.
      destruct (tasks s') as [|p [|? ?]]; simpl in *; try lia.
      specialize (Hex eq_refl). discriminate.
    + rewrite Hidle by reflexivity. auto.
  - intros w k s'' Hs Hend. simpl in Hs.
    destruct (tasks s' !! w) as [p|] eqn:Hw; [|discriminate].
    destruct (resume p k (gstate s')) as [seg|] eqn:Hr; [|discriminate].
    injection Hs as <-. simpl in *.
    destruct (single_task _ _ _ Hlen Hw) as [Hts ->]. rewrite Hts in Hend.
    destruct (resume_ok _ _ _ _ Hr) as [Hok | [Hnone _]];
      [|now apply get_preset_some in Hnone].
    unfold block_ok in Hok.
    destruct (seg_next seg) as [p'|]; simpl in Hend; [discriminate|].
    apply Hok.
Qed.

(** While no worker lives and nothing is submitted, the queue stays as it
    is: commands do not touch it and no wake-up is enabled. *)
Lemma idle_queue_stays (tr : list label) (s s' : sys) :
  tasks s = [] ->
  forallb (fun l => negb (is_inbound l)) tr = true ->
  run tr s = Some s' ->
  tasks s' = [] /\ queue (gstate s') = queue (gstate s).
Proof.
  revert s. induction tr as [|l tr IH]; intros s Ht Hall Hr; simpl in *.
  - injection Hr as <-. auto.
  - apply andb_prop in Hall as [Hl Hall].
    assert (Hcmd : forall f : GroupState -> GroupState,
               (forall st, queue (f st) = queue st) ->
               run tr (with_gstate f s) = Some s' ->
               tasks s' = [] /\ queue (gstate s') = queue (gstate s)).
    { intros f Hf Hr'. destruct (IH (with_gstate f s) Ht Hall Hr') as [H1 H2].
      split; [exact H1|]. rewrite H2. simpl. apply Hf. }
    destruct l as [event rnd | arg | arg | | | w k]; simpl in *.
    + discriminate.
    + revert Hr; apply Hcmd; intros st; unfold handle_preset.
      destruct (str_eqb _ _); [reflexivity|].
      destruct (existsb _ _); reflexivity.
    + revert Hr; apply Hcmd; reflexivity.
    + revert Hr; apply Hcmd; reflexivity.
    + revert Hr; apply Hcmd; reflexivity.
    + rewrite Ht in Hr. discriminate.
Qed.

(** ** The [off] preset *)

Lemma str_eqb_eq (a b : pystr) : str_eqb a b = true <-> a = b.
Proof.
  revert b. induction a as [|x a IH]; intros [|y b]; simpl;
    try (split; [discriminate | discriminate]); [tauto|].
  unfold char_eqb. rewrite andb_true_iff, N.eqb_eq, IH.
  split; [intros [-> ->]; reflexivity | intros [= -> ->]; auto].
Qed.

Lemma run_app (tr1 tr2 : list label) (s : sys) :
  run (tr1 ++ tr2) s
  = match run tr1 s with Some s1 => run tr2 s1 | None => None end.
Proof.
  revert s. induction tr1 as [|l tr1 IH]; intros s; simpl; [reflexivity|].
  destruct (step l s); [apply IH | reflexivity].
Qed.

Lemma on_message_off (s : sys) (event : Event) (rnd : Q) :
  preset_name (gstate s) = off -> on_message s event rnd = s.
Proof.
  intros Hoff. unfold on_message, is_triggered.
  apply str_eqb_eq in Hoff. rewrite Hoff. now destruct s.
Qed.

Lemma run_arrivals_off (s : sys) (arrivals : list (Event * Q)) :
  preset_name (gstate s) = off -> run (map arrival arrivals) s = Some s.
Proof.
  intros Hoff. induction arrivals as [|a arrivals IH]; simpl; [reflexivity|].
  now rewrite on_message_off.
Qed.

(** C8: while the preset of a group is ["off"], the rule turns every
    inbound event down, and however many arrive, none is put on the queue,
    no worker is started and the [processing] flag is not touched. *)
Theorem off_admits_nothing (s : sys) (arrivals : list (Event * Q)) :
  preset_name (gstate s) = off ->
  Forall (fun a => (is_triggered (gstate s) a.1 a.2).1 = false) arrivals
  /\ exists s',
      run (map arrival arrivals) s = Some s'
      /\ queue (gstate s') = queue (gstate s)
      /\ tasks s' = tasks s
      /\ processing (gstate s') = processing (gstate s).
Proof.
  intros Hoff. split.
  - apply Forall_forall. intros a _. unfold is_triggered.
    apply str_eqb_eq in Hoff. now rewrite Hoff.
  - exists s. rewrite run_arrivals_off by exact Hoff. auto.
Qed.

(** C9: while the preset is ["off"], an inbound event is not recorded in
    the pending events either, so whatever the group does afterwards, it
    does as if the events had never arrived. *)
Theorem off_records_nothing (s : sys) (arrivals : list (Event * Q))
    (later : list label) :
  preset_name (gstate s) = off ->
  (exists s',
      run (map arrival arrivals) s = Some s'
      /\ past_events (gstate s') = past_events (gstate s))
  /\ run (map arrival arrivals ++ later) s = run later s.
Proof.
  intros Hoff. split.
  - exists s. rewrite run_arrivals_off by exact Hoff. auto.
  - rewrite run_app, run_arrivals_off by exact Hoff. reflexivity.
Qed.

(** ** A failed model call *)

Lemma delete_after_insert {A : Type} (l : list A) (i : nat) (x : A) :
  delete i (<[i := x]> l) = delete i l.
Proof.
  revert i. induction l as [|y l IH]; intros [|i]; simpl; try reflexivity.
  f_equal. apply IH.
Qed.

(** C3: when the model call of a batch raises (a timeout, a transport
    failure and a backend error alike, [e] being the text of the
    exception), the worker changes nothing in the group state, hands
    exactly one text to [handler.send], the failure message, and once that
    is sent goes back to the loop test: history and pending events are
    still what they were; with an event queued and events pending the
    worker takes the event and issues the next model call on the same
    pending content, and with an empty queue it ends, clearing the
    flag. *)
Theorem model_failure_reported (s : sys) (w : nat) (messages : list Turn)
    (text e : pystr) :
  tasks s !! w = Some (PcModel messages text) ->
  exists s1 s2,
    step (Wake w (ModelDone (ModelErr e))) s = Some s1
    /\ gstate s1 = gstate s
    /\ outbox s1 = outbox s ++ [failure_message e]
    /\ tasks s1 = <[w := PcSendFail]> (tasks s)
    /\ step (Wake w SendDone) s1 = Some s2
    /\ history (gstate s2) = history (gstate s)
    /\ past_events (gstate s2) = past_events (gstate s)
    /\ outbox s2 = outbox s ++ [failure_message e]
    /\ (forall event q,
          queue (gstate s) = event :: q ->
          Deque.items (past_events (gstate s)) <> [] ->
          queue (gstate s2) = q
          /\ processing (gstate s2) = processing (gstate s)
          /\ exists messages',
              tasks s2
              = <[w := PcModel messages'
                         (join (py ",")
                            (map format_message
                               (Deque.items (past_events (gstate s)))))]>
                  (tasks s))
    /\ (queue (gstate s) = [] ->
        tasks s2 = delete w (tasks s) /\ processing (gstate s2) = false).
Proof.
  intros Hw.
  assert (Hlt : w < length (tasks s)) by (eapply lookup_lt_Some; eauto).
  eexists. eexists.
  split. { simpl. rewrite Hw. simpl. reflexivity. }
  simpl.
  split; [reflexivity|]. split; [reflexivity|]. split; [reflexivity|].
  rewrite list_lookup_insert_eq by exact Hlt. simpl.
  split; [reflexivity|].
  unfold loop_head.
  destruct (queue (gstate s)) as [|event q] eqn:Hq; simpl.
  - rewrite app_nil_r.
    repeat split; try reflexivity; try discriminate.
    apply delete_after_insert.
  - destruct (Nat.ltb_spec (length (Deque.items (past_events (gstate s)))) 1)
      as [Hlt1 | Hge1]; simpl; rewrite app_nil_r.
    + repeat split; try reflexivity; try discriminate.
      all: destruct (Deque.items (past_events (gstate s)));
        [congruence | simpl in Hlt1; lia].
    + repeat split; try reflexivity; try discriminate.
      all: try (match goal with H : _ :: _ = _ :: _ |- _ =>
                  now injection H as _ <- end).
      eexists. apply list_insert_insert_eq.
Qed.

(** ** A successful batch *)

Lemma pop_reasoning_content_some (raw : pystr) :
  exists reply matched,
    pop_reasoning_content (Some raw) = (Some reply, matched).
Proof.
  unfold pop_reasoning_content.
  destruct (truthy (match_think raw)); [|eauto].
  destruct (match_think raw); eauto.
Qed.

Lemma loop_head_frame (st : GroupState) :
  history (seg_state (loop_head st)) = history st
  /\ past_events (seg_state (loop_head st)) = past_events st
  /\ seg_sent (loop_head st) = [].
Proof.
  unfold loop_head. destruct (queue st); simpl; [auto|].
  destruct (_ <? 1); simpl; auto.
Qed.

Lemma apply_segment_insert (st : GroupState) (l : list pc) (o : list pystr)
    (w : nat) (p : pc) (seg : segment) :
  apply_segment (mkSys st (<[w := p]> l) o) w seg
  = apply_segment (mkSys st l o) w seg.
Proof.
  unfold apply_segment; simpl. f_equal.
  destruct (seg_next seg);
    [apply list_insert_insert_eq | apply delete_after_insert].
Qed.

(** The [for] loop, run to its end: the segments go out one by one, then
    the whole reply is appended as the assistant turn and the worker is
    back at the loop test. *)
Lemma run_send_segments (st : GroupState) (l : list pc) (o : list pystr)
    (w : nat) (pieces : list pystr) (reply : pystr) :
  w < length l ->
  run (flat_map (fun _ => [Wake w SleepDone; Wake w SendDone])
         (outbound_segments pieces))
    (apply_segment (mkSys st l o) w (send_segments st pieces reply))
  = Some
      (apply_segment (mkSys st l (o ++ outbound_segments pieces)) w
         (loop_head
            (set_history
               (Deque.append (mkTurn role_assistant reply) (history st)) st))).
Proof.
  intros Hw. revert l o Hw. unfold outbound_segments.
  induction pieces as [|r rest IH]; intros l o Hw.
  - simpl. now rewrite app_nil_r.
  - simpl. destruct ((length r =? 0) || isspace r) eqn:Hblank; simpl.
    + apply IH, Hw.
    + unfold apply_segment at 1; simpl.
      rewrite list_lookup_insert_eq by exact Hw. simpl.
      unfold apply_segment at 1; simpl.
      rewrite list_lookup_insert_eq by (rewrite length_insert; exact Hw).
      simpl. rewrite list_insert_insert_eq.
      pose proof (IH (<[w:=PcSendSeg rest reply]> l) ((o ++ []) ++ [strip r]))
        as IH'.
      rewrite length_insert in IH'. specialize (IH' Hw).
      unfold apply_segment in IH' at 1. simpl in IH'. rewrite IH'.
      rewrite apply_segment_insert, app_nil_r, <- app_assoc.
      reflexivity.
Qed.

Lemma deque_append_last {A : Type} (x : A) (d : Deque.deque A) :
  0 < Deque.maxlen d -> last (Deque.items (Deque.append x d)) = Some x.
Proof.
  intros Hpos. unfold Deque.append; simpl.
  destruct (Nat.ltb_spec (Deque.maxlen d) (length (Deque.items d ++ [x])))
    as [Hlt | _]; [|apply last_snoc].
  destruct (Deque.items d) as [|y l]; simpl in *; [lia|].
  apply last_snoc.
Qed.

(** C7: a successful batch, from the answer of the model call to the
    loop test.  [reply] is the visible text that reasoning extraction
    returns for the raw answer.  The worker appends the user turn of the
    batch and then one assistant turn whose content is [reply] as a whole;
    the split on [<botbr>] only shapes what goes out: the reasoning, when
    it is to be shown, and then the stripped non-blank segments. *)
Theorem reply_stored_unsplit (s : sys) (w : nat) (messages : list Turn)
    (text : pystr) (message : ChatMessage) (others : list ChatMessage)
    (raw reply : pystr) (matched : option pystr) :
  tasks s !! w = Some (PcModel messages text) ->
  msg_content message = Some raw ->
  pop_reasoning_content (Some raw) = (Some reply, matched) ->
  let reasoning := py_or (msg_reasoning_content message) matched in
  let emitted :=
    if output_reasoning_content (gstate s) && truthy reasoning
    then match reasoning with Some t => [t] | None => [] end
    else [] in
  let segs := outbound_segments (split botbr reply) in
  exists s',
    run (Wake w (ModelDone (ModelOk (mkCompletion (message :: others))))
         :: delivery w emitted segs) s = Some s'
    /\ history (gstate s')
       = Deque.append (mkTurn role_assistant reply)
           (Deque.append (mkTurn role_user text) (history (gstate s)))
    /\ outbox s' = outbox s ++ emitted ++ segs
    /\ (0 < Deque.maxlen (history (gstate s)) ->
        last (Deque.items (history (gstate s')))
        = Some (mkTurn role_assistant reply)).
Proof.
  intros Hw Hraw Hpop reasoning emitted segs.
  assert (Hlt : w < length (tasks s)) by (eapply lookup_lt_Some; eauto).
  set (st1 :=
         set_past_events (Deque.clear (past_events (gstate s)))
           (set_history
              (Deque.append (mkTurn role_user text) (history (gstate s)))
              (gstate s))).
  set (final :=
         loop_head
           (set_history
              (Deque.append (mkTurn role_assistant reply) (history st1)) st1)).
  assert (Hrun :
    run (Wake w (ModelDone (ModelOk (mkCompletion (message :: others))))
         :: delivery w emitted segs) s
    = Some (apply_segment
              (mkSys st1 (tasks s) (outbox s ++ emitted ++ segs)) w final)).
  { simpl. rewrite Hw. simpl. rewrite Hraw, Hpop. fold st1. fold reasoning.
    unfold delivery. subst emitted. simpl.
    destruct (output_reasoning_content (gstate s) && truthy reasoning)
      eqn:Hemit; simpl.
    - apply andb_prop in Hemit as [_ Ht].
      destruct reasoning as [t|]; [|discriminate]. simpl.
      unfold apply_segment at 1; simpl.
      rewrite list_lookup_insert_eq by exact Hlt. simpl.
      pose proof (run_send_segments st1
                    (<[w:=PcSendReasoning (Some reply)]> (tasks s))
                    (outbox s ++ [t]) w (split botbr reply) reply) as Hs.
      rewrite length_insert in Hs. specialize (Hs Hlt).
      unfold apply_segment in Hs at 1. simpl in Hs.
      unfold apply_segment at 1. simpl. fold segs in Hs. rewrite Hs.
      rewrite apply_segment_insert, <- app_assoc. reflexivity.
    - pose proof (run_send_segments st1 (tasks s) (outbox s) w
                    (split botbr reply) reply Hlt) as Hs.
      unfold apply_segment in Hs at 1. simpl in Hs.
      unfold apply_segment at 1. fold segs in Hs. rewrite Hs. reflexivity. }
  eexists. split; [exact Hrun|].
  destruct (loop_head_frame
              (set_history
                 (Deque.append (mkTurn role_assistant reply) (history st1))
                 st1)) as (Hh & _ & Hsent).
  fold final in Hh, Hsent.
  unfold apply_segment; cbn [gstate outbox]. rewrite Hh, Hsent.
  subst st1. cbn [history set_history set_past_events].
  split; [reflexivity|]. split; [now rewrite app_nil_r|].
  intros Hpos. now apply deque_append_last.
Qed.

(** ** Alternation of the history *)

Lemma last_role_snoc (l : list Turn) (t : Turn) :
  last_role (l ++ [t]) = Some (role t).
Proof. unfold last_role. now rewrite last_snoc. Qed.

Lemma alternating_snoc (l : list Turn) (t : Turn) :
  alternating l = true ->
  last_role l <> Some (role t) ->
  alternating (l ++ [t]) = true.
Proof.
  induction l as [|a [|b l] IH]; simpl; intros Ha Hl; [reflexivity| |].
  - rewrite andb_true_r. apply negb_true_iff.
    destruct (str_eqb (role a) (role t)) eqn:E; [|reflexivity].
    apply str_eqb_eq in E. elim Hl. unfold last_role; simpl. now rewrite E.
  - apply andb_prop in Ha as [Hab Ha]. rewrite Hab. simpl.
    apply IH; [exact Ha|]. exact Hl.
Qed.

Lemma alternating_tail (l : list Turn) :
  alternating l = true -> alternating (tail l) = true.
Proof.
  destruct l as [|a [|b l]]; simpl; try reflexivity.
  intros H. now apply andb_prop in H as [_ H].
Qed.

Lemma last_role_tail (l : list Turn) (r : pystr) :
  last_role l = Some r -> last_role (tail l) = None \/ last_role (tail l) = Some r.
Proof.
  destruct l as [|a [|b l]]; simpl; auto.
Qed.

(** Appending a turn whose role differs from the newest one keeps the
    alternation; the newest role is then the appended one, unless the
    deque holds nothing at all. *)
Lemma deque_append_alternating (d : Deque.deque Turn) (t : Turn) :
  alternating (Deque.items d) = true ->
  last_role (Deque.items d) <> Some (role t) ->
  alternating (Deque.items (Deque.append t d)) = true
  /\ (last_role (Deque.items (Deque.append t d)) = None
      \/ last_role (Deque.items (Deque.append t d)) = Some (role t)).
Proof.
  intros Ha Hl. unfold Deque.append; simpl.
  pose proof (alternating_snoc _ _ Ha Hl) as Hs.
  pose proof (last_role_snoc (Deque.items d) t) as Hr.
  destruct (_ <? _).
  - split; [now apply alternating_tail | now apply last_role_tail].
  - auto.
Qed.

Lemma loop_head_inv (st : GroupState) :
  alternating (Deque.items (history st)) = true ->
  last_role (Deque.items (history st)) <> Some role_user ->
  segment_inv (loop_head st).
Proof.
  intros Ha Hl. unfold segment_inv, next_pc, loop_head.
  destruct (queue st); simpl; [auto|].
  destruct (_ <? 1); simpl; auto.
Qed.

Lemma send_segments_inv (st : GroupState) (pieces : list pystr)
    (reply : pystr) :
  alternating (Deque.items (history st)) = true ->
  last_role (Deque.items (history st)) <> Some role_assistant ->
  segment_inv (send_segments st pieces reply).
Proof.
  intros Ha Hl. induction pieces as [|r rest IH]; simpl.
  - destruct (deque_append_alternating (history st)
                (mkTurn role_assistant reply) Ha Hl) as [Ha' Hl'].
    apply loop_head_inv; cbn [history set_history]; [exact Ha'|].
    destruct Hl' as [E | E]; rewrite E; [discriminate|].
    intros [=].
  - destruct (_ || _); [exact IH|]. split; [exact Ha | exact Hl].
Qed.

Lemma on_model_result_inv (st : GroupState) (text : pystr)
    (result : model_result) :
  has_reply result = true ->
  alternating (Deque.items (history st)) = true ->
  last_role (Deque.items (history st)) <> Some role_user ->
  segment_inv (on_model_result st text result).
Proof.
  intros Hr Ha Hl. unfold on_model_result.
  destruct result as [response | e]; [|discriminate]. simpl in Hr.
  destruct (choices response) as [|message others]; [discriminate|].
  apply bool_decide_eq_true in Hr as [raw Hraw]. rewrite Hraw.
  destruct (pop_reasoning_content_some raw) as (reply & matched & ->).
  destruct (deque_append_alternating (history st)
              (mkTurn role_user text) Ha Hl) as [Ha' Hl'].
  assert (Hl'' : last_role
                   (Deque.items
                      (Deque.append (mkTurn role_user text) (history st)))
                 <> Some role_assistant).
  { destruct Hl' as [E | E]; rewrite E; [discriminate|].
    intros [=]. }
  simpl. destruct (_ && _).
  - split; [exact Ha' | exact Hl''].
  - simpl. now apply send_segments_inv.
Qed.

Lemma resume_inv (p : pc) (k : wake) (st : GroupState) (seg : segment) :
  resume p k st = Some seg ->
  (forall result, k = ModelDone result -> has_reply result = true) ->
  alternating (Deque.items (history st)) = true ->
  expects (Some p) (Deque.items (history st)) ->
  segment_inv seg.
Proof.
  intros Hr Hk Ha He.
  destruct p as [| messages text | [reply|] | r rest reply | rest reply |],
    k as [| result | |];
    simpl in Hr, He; try discriminate; try contradiction.
  - destruct (get_preset st); injection Hr as <-;
      [now apply loop_head_inv | split; [exact Ha | exact He]].
  - injection Hr as <-. apply on_model_result_inv; auto.
  - injection Hr as <-. now apply send_segments_inv.
  - injection Hr as <-. split; [exact Ha | exact He].
  - injection Hr as <-. now apply send_segments_inv.
  - injection Hr as <-. now apply loop_head_inv.
Qed.

Lemma expects_nil (p : option pc) (h : list Turn) :
  expects p h -> expects p [].
Proof.
  destruct p as [[| | [|] | | |]|]; simpl; try discriminate; tauto.
Qed.

Lemma step_history_inv (l : label) (s s' : sys) :
  successful l = true ->
  history_inv s -> step l s = Some s' -> history_inv s'.
Proof.
  intros Hl (Hsf & Ha & He) Hs.
  split; [eauto using step_single_flight|].
  destruct Hsf as [Hlen Hidle].
  destruct l as [event rnd | arg | arg | | | w k]; simpl in Hs.
  - injection Hs as <-. unfold on_message.
    pose proof (is_triggered_frame (gstate s) event rnd) as (Hp & _ & Hh & _).
    destruct (is_triggered _ _ _) as [triggered st]; simpl in Hp, Hh.
    destruct triggered; simpl; [|rewrite Hh; auto].
    unfold handle_message; simpl.
    destruct (processing st) eqn:E; simpl; rewrite Hh; [auto|].
    split; [exact Ha|].
    rewrite Hidle in He |- * by congruence. exact He.
  - injection Hs as <-. simpl. unfold handle_preset.
    destruct (str_eqb _ _); [auto|]. destruct (existsb _ _); auto.
  - injection Hs as <-. simpl. auto.
  - injection Hs as <-. simpl. eauto using expects_nil.
  - injection Hs as <-. simpl. auto.
  - destruct (tasks s !! w) as [p|] eqn:Hw; [|discriminate].
    destruct (resume p k (gstate s)) as [seg|] eqn:Hr; [|discriminate].
    injection Hs as <-.
    destruct (single_task _ _ _ Hlen Hw) as [Ht ->].
    rewrite Ht in He. simpl in He.
    assert (Hk : forall result, k = ModelDone result ->
                                has_reply result = true)
      by (intros result ->; exact Hl).
    destruct (resume_inv _ _ _ _ Hr Hk Ha He) as [Ha' He'].
    unfold apply_segment; simpl. split; [exact Ha'|].
    unfold next_pc in He'. rewrite Ht.
    destruct (seg_next seg); exact He'.
Qed.

Lemma run_history_inv (tr : list label) (s s' : sys) :
  forallb successful tr = true ->
  history_inv s -> run tr s = Some s' -> history_inv s'.
Proof.
  revert s. induction tr as [|l tr IH]; intros s Hall Hi Hr; simpl in *.
  - now injection Hr as <-.
  - apply andb_prop in Hall as [Hl Hall].
    destruct (step l s) as [s1|] eqn:Hs; [|discriminate].
    eauto using step_history_inv.
Qed.

Lemma deque_append_dialogue (d : Deque.deque Turn) (t : Turn) :
  role t = role_user \/ role t = role_assistant ->
  dialogue (Deque.items d) -> dialogue (Deque.items (Deque.append t d)).
Proof.
  intros Ht Hd. unfold dialogue, Deque.append; simpl.
  assert (H : Forall (fun t => role t = role_user \/ role t = role_assistant)
                (Deque.items d ++ [t]))
    by (apply Forall_app; auto).
  destruct (_ <? _); [|exact H].
  destruct (Deque.items d ++ [t]); [exact H|]. simpl.
  now apply Forall_cons_1 in H.
Qed.

Lemma loop_head_dialogue (st : GroupState) :
  dialogue (Deque.items (history st)) ->
  dialogue (Deque.items (history (seg_state (loop_head st)))).
Proof. now destruct (loop_head_frame st) as (-> & _). Qed.

Lemma send_segments_dialogue (st : GroupState) (pieces : list pystr)
    (reply : pystr) :
  dialogue (Deque.items (history st)) ->
  dialogue (Deque.items (history (seg_state (send_segments st pieces reply)))).
Proof.
  intros Hd. induction pieces as [|r rest IH]; simpl.
  - apply loop_head_dialogue; simpl. apply deque_append_dialogue; auto.
  - destruct (_ || _); [exact IH | exact Hd].
Qed.

Lemma resume_dialogue (p : pc) (k : wake) (st : GroupState) (seg : segment) :
  resume p k st = Some seg ->
  dialogue (Deque.items (history st)) ->
  dialogue (Deque.items (history (seg_state seg))).
Proof.
  intros Hr Hd.
  assert (Hafter : forall st' reply,
             dialogue (Deque.items (history st')) ->
             dialogue
               (Deque.items (history (seg_state (after_reasoning st' reply))))).
  { intros st' [reply|] Hd'; simpl; [now apply send_segments_dialogue | exact Hd']. }
  destruct p, k; simpl in Hr; try discriminate;
    try (injection Hr as <-);
    auto using loop_head_dialogue, send_segments_dialogue.
  - destruct (get_preset st); injection Hr as <-;
      auto using loop_head_dialogue.
  - unfold on_model_result. destruct result as [response | e]; [|exact Hd].
    set (st' := set_past_events _ _).
    assert (Hd' : dialogue (Deque.items (history st')))
      by (subst st'; simpl; apply deque_append_dialogue; auto).
    clearbody st'.
    destruct (choices response) as [|message ?]; [exact Hd'|].
    destruct (pop_reasoning_content _) as [reply matched].
    destruct (_ && _); [exact Hd' | now apply Hafter].
Qed.

Lemma step_dialogue (l : label) (s s' : sys) :
  dialogue (Deque.items (history (gstate s))) ->
  step l s = Some s' ->
  dialogue (Deque.items (history (gstate s'))).
Proof.
  intros Hd Hs. destruct l as [event rnd | arg | arg | | | w k]; simpl in Hs.
  - injection Hs as <-. unfold on_message.
    pose proof (is_triggered_frame (gstate s) event rnd) as (_ & _ & Hh & _).
    destruct (is_triggered _ _ _) as [triggered st]; simpl in Hh.
    destruct triggered; simpl; [|now rewrite Hh].
    unfold handle_message; simpl. destruct (negb _); simpl; now rewrite Hh.
  - injection Hs as <-. simpl. unfold handle_preset.
    destruct (str_eqb _ _); [exact Hd|]. destruct (existsb _ _); exact Hd.
  - injection Hs as <-. exact Hd.
  - injection Hs as <-. simpl. constructor.
  - injection Hs as <-. exact Hd.
  - destruct (tasks s !! w) as [p|]; [|discriminate].
    destruct (resume p k (gstate s)) as [seg|] eqn:Hr; [|discriminate].
    injection Hs as <-. simpl. eauto using resume_dialogue.
Qed.

Lemma run_dialogue (tr : list label) (s s' : sys) :
  dialogue (Deque.items (history (gstate s))) ->
  run tr s = Some s' ->
  dialogue (Deque.items (history (gstate s'))).
Proof.
  revert s. induction tr as [|l tr IH]; intros s Hd Hr; simpl in Hr.
  - now injection Hr as <-.
  - destruct (step l s) as [s1|] eqn:Hs; [|discriminate].
    eauto using step_dialogue.
Qed.

(** What holds of the alternation of roles: starting from an idle group
    whose history is made of user and assistant turns that alternate and
    does not end on a user turn (a new group has an empty history), along
    every run in which each model call is answered with a text (commands
    and inbound events may come in between at will), the history is made
    of user and assistant turns and no two neighbouring turns carry the
    same role.  The condition on the last turn is needed: a batch that
    fails after line 238 leaves a user turn at the end. *)
Theorem history_alternates (tr : list label) (s s' : sys) :
  tasks s = [] ->
  processing (gstate s) = false ->
  dialogue (Deque.items (history (gstate s))) ->
  alternating (Deque.items (history (gstate s))) = true ->
  last_role (Deque.items (history (gstate s))) <> Some role_user ->
  forallb successful tr = true ->
  run tr s = Some s' ->
  dialogue (Deque.items (history (gstate s')))
  /\ alternating (Deque.items (history (gstate s'))) = true.
Proof.
  intros Ht Hp Hd Ha Hl Hall Hrun.
  split; [eauto using run_dialogue|].
  assert (H0 : history_inv s).
  { unfold history_inv, single_flight. rewrite Ht. simpl. auto with lia. }
  now destruct (run_history_inv tr s s' Hall H0 Hrun) as (_ & Ha' & _).
Qed.

(** ** Snapshots *)

Lemma digits_all_digit (u : Decimal.uint) : forallb is_digit (digits u) = true.
Proof. induction u; simpl; auto. Qed.

Lemma parse_digits_digits (u : Decimal.uint) (after_digit : bool) :
  u <> Decimal.Nil \/ after_digit = true ->
  parse_digits (digits u) after_digit = Some u.
Proof.
  revert after_digit.
  induction u as [|u IH|u IH|u IH|u IH|u IH|u IH|u IH|u IH|u IH|u IH];
    intros after_digit Hu;
    [destruct Hu as [Hu | ->]; [contradiction | reflexivity]| ..];
    cbn [digits parse_digits N.eqb Pos.eqb digit_of];
    now rewrite IH by (right; reflexivity).
Qed.

Lemma lstrip_where_id (p : char -> bool) (s : pystr) :
  forallb (fun c => negb (p c)) s = true -> lstrip_where p s = s.
Proof.
  destruct s as [|c s]; simpl; [reflexivity|].
  intros H. apply andb_prop in H as [Hc _].
  apply negb_true_iff in Hc. now rewrite Hc.
Qed.

Lemma strip_where_id (p : char -> bool) (s : pystr) :
  forallb (fun c => negb (p c)) s = true -> strip_where p s = s.
Proof.
  intros H. unfold strip_where. rewrite (lstrip_where_id p s H).
  rewrite lstrip_where_id; [apply rev_involutive|].
  apply forallb_forall. intros c Hc. apply in_rev in Hc.
  now apply (proj1 (forallb_forall _ _) H).
Qed.

Lemma digit_plain (c : char) :
  is_digit c = true -> int_space c = false /\ maybe_digit c = false.
Proof.
  unfold is_digit, int_space, maybe_digit. intros H.
  apply andb_prop in H as [H1 H2]. apply N.leb_le in H1, H2.
  assert (E1 : (c <=? 13)%N = false) by (apply N.leb_gt; lia).
  assert (E2 : (c =? 32)%N = false) by (apply N.eqb_neq; lia).
  assert (E3 : (127 <=? c)%N = false) by (apply N.leb_gt; lia).
  assert (E4 : (128 <=? c)%N = false) by (apply N.leb_gt; lia).
  rewrite E1, E2, E3, E4, andb_false_r. split; reflexivity.
Qed.

Lemma str_of_int_plain (n : Z) :
  forallb (fun c => negb (int_space c)) (str_of_int n) = true
  /\ existsb maybe_digit (str_of_int n) = false.
Proof.
  assert (H : forall u,
             forallb (fun c => negb (int_space c)) (digits u) = true
             /\ existsb maybe_digit (digits u) = false).
  { intros u. split.
    - apply forallb_forall. intros c Hc. apply negb_true_iff.
      apply digit_plain.
      now apply (proj1 (forallb_forall _ _) (digits_all_digit u)).
    - apply not_true_is_false. intros He.
      apply existsb_exists in He as (c & Hc & He).
      pose proof (proj1 (forallb_forall _ _) (digits_all_digit u) c Hc) as Hd.
      apply digit_plain in Hd as [_ Hd]. congruence. }
  unfold str_of_int. destruct (Z.to_int n) as [u | u];
    destruct (H u) as [H1 H2]; [now split|].
  split; cbn [forallb existsb]; [rewrite H1 | rewrite H2]; reflexivity.
Qed.

(** [int(str(n)) == n] *)
Lemma int_of_str_of_int (n : Z) : int_of_str (str_of_int n) = Value n.
Proof.
  unfold int_of_str. destruct (str_of_int_plain n) as [Hs Hd].
  rewrite Hd, (strip_where_id _ _ Hs).
  unfold str_of_int.
  destruct (Z.to_int n) as [u | u] eqn:E.
  - assert (Hu : u <> Decimal.Nil).
    { destruct n; simpl in E; try discriminate; injection E as <-;
        try discriminate; apply DecimalPos.Unsigned.to_uint_nonnil. }
    rewrite <- (DecimalZ.of_to n), E.
    pose proof (parse_digits_digits u false (or_introl Hu)) as Hp.
    destruct u; try contradiction; simpl digits in *;
      cbn [N.eqb Pos.eqb] in *; now rewrite Hp.
  - assert (Hu : u <> Decimal.Nil).
    { destruct n; simpl in E; try discriminate. injection E as <-.
      apply DecimalPos.Unsigned.to_uint_nonnil. }
    rewrite <- (DecimalZ.of_to n), E.
    now rewrite (parse_digits_digits u false (or_introl Hu)).
Qed.

Lemma str_of_int_inj (a b : Z) : str_of_int a = str_of_int b -> a = b.
Proof.
  intros H. apply (f_equal int_of_str) in H.
  rewrite !int_of_str_of_int in H. now injection H.
Qed.

Lemma turns_of_json_to_json (l : list Turn) :
  turns_of_json (map turn_to_json l) = Some l.
Proof.
  induction l as [|[r c] l IH]; [reflexivity|].
  cbn [map turns_of_json]. rewrite IH. reflexivity.
Qed.

(** A key that is not among the members is not found. *)
Lemma member_fresh (key : pystr) (m : list (pystr * json)) :
  key ∉ m.*1 -> member key m = None.
Proof.
  induction m as [|[k v] m IH]; intros Hk; [reflexivity|].
  rewrite fmap_cons in Hk. apply not_elem_of_cons in Hk as [Hne Hk].
  simpl in *. destruct (str_eqb k key) eqn:E; [|now apply IH].
  apply str_eqb_eq in E. congruence.
Qed.

Lemma dict_set_fresh (key : pystr) (v : json) (d : list (pystr * json)) :
  member key d = None -> dict_set key v d = d ++ [(key, v)].
Proof.
  induction d as [|[k v'] d IH]; simpl; [reflexivity|].
  destruct (str_eqb k key); [discriminate|].
  intros H. now rewrite IH.
Qed.

Lemma dict_set_member_none (key k : pystr) (v : json)
    (d : list (pystr * json)) :
  member key d = None -> str_eqb k key = false ->
  member key (dict_set k v d) = None.
Proof.
  intros Hd Hk. induction d as [|[k' v'] d IH]; simpl in *; [now rewrite Hk|].
  destruct (str_eqb k' key) eqn:E; [discriminate|].
  destruct (str_eqb k' k); simpl; rewrite E; auto.
Qed.

Lemma dict_fold_member_none (key : pystr) (m d : list (pystr * json)) :
  member key d = None -> member key m = None ->
  member key (fold_left (fun d '(k, v) => dict_set k v d) m d) = None.
Proof.
  revert d. induction m as [|[k v] m IH]; intros d Hd Hm; [exact Hd|].
  simpl in *. destruct (str_eqb k key) eqn:E; [discriminate|].
  apply IH; [|exact Hm]. now apply dict_set_member_none.
Qed.

(** A key that the document lacks, the dict lacks. *)
Lemma py_dict_member_none (key : pystr) (m : list (pystr * json)) :
  member key m = None -> member key (py_dict m) = None.
Proof. now apply dict_fold_member_none. Qed.

Lemma dict_fold_fresh (m d : list (pystr * json)) :
  NoDup (d ++ m).*1 ->
  fold_left (fun d '(k, v) => dict_set k v d) m d = d ++ m.
Proof.
  revert d. induction m as [|[k v] m IH]; intros d Hnd; simpl.
  - now rewrite app_nil_r.
  - rewrite dict_set_fresh.
    + rewrite IH; rewrite <- app_assoc; [reflexivity | exact Hnd].
    + apply member_fresh. rewrite fmap_app in Hnd.
      apply NoDup_app in Hnd as (_ & Hnd & _). intros Hin.
      apply (Hnd k Hin). rewrite fmap_cons. apply elem_of_cons. now left.
Qed.

(** When no key is repeated, the dict has the members of the document, in
    their order. *)
Lemma py_dict_id (m : list (pystr * json)) : NoDup m.*1 -> py_dict m = m.
Proof. intros H. unfold py_dict. now rewrite dict_fold_fresh. Qed.

(** [save_state] repeats no key: [str] of two different numbers is
    different. *)
Lemma saved_keys_NoDup (l : list (Z * GroupState)) :
  NoDup l.*1 ->
  NoDup
    (map (fun '(gid, state) => (str_of_int gid, state_to_json state)) l).*1.
Proof.
  induction l as [|[k v] l IH]; intros Hnd; [constructor|].
  rewrite fmap_cons in Hnd. apply NoDup_cons in Hnd as [Hk Hnd].
  cbn [map]. rewrite fmap_cons. apply NoDup_cons. split; [|now apply IH].
  intros Hin. apply list_elem_of_fmap in Hin as ([k1 j] & Heq & Hin).
  apply list_elem_of_In, in_map_iff in Hin as ([k' v'] & [= <- <-] & Hin).
  simpl in Heq. apply str_of_int_inj in Heq. subst k'.
  apply Hk. apply list_elem_of_fmap. exists (k, v').
  split; [reflexivity | now apply list_elem_of_In].
Qed.

Lemma state_members (a b c d e : json) :
  let m :=
    py_dict
      [(py "preset", a); (py "history", b); (py "last_active", c);
       (py "group_prompt", d); (py "output_reasoning_content", e)] in
  member (py "preset") m = Some a
  /\ member (py "history") m = Some b
  /\ member (py "last_active") m = Some c
  /\ member (py "group_prompt") m = Some d
  /\ member (py "output_reasoning_content") m = Some e.
Proof. repeat split; vm_compute; reflexivity. Qed.

Lemma load_entry_saved (now : Q) (gid : Z) (state : GroupState) :
  load_entry now (str_of_int gid) (state_to_json state)
  = Value (gid, reloaded now state).
Proof.
  unfold load_entry, state_to_json, subscript.
  match goal with
  | |- context [member _ (py_dict [(_, ?a); (_, ?b); (_, ?c); (_, ?d); (_, ?e)])] =>
      destruct (state_members a b c d e) as (H1 & H2 & H3 & H4 & H5)
  end.
  rewrite H1, H2, H3, H4, H5.
  cbn [deque_of_json assign as_str as_number as_bool].
  rewrite turns_of_json_to_json, int_of_str_of_int.
  unfold reloaded.
  destruct (group_prompt state) eqn:E; cbn [as_optional_str fmap option_fmap option_map];
    reflexivity.
Qed.

Lemma load_fold_saved (now : Q) (l : list (Z * GroupState))
    (before : gmap Z GroupState) :
  fold_left
    (fun acc '(gid, state_data) =>
       match acc with
       | (gs, Returned) =>
           match load_entry now gid state_data with
           | Value (key, state) => (<[key := state]> gs, Returned)
           | Raises => (gs, Raised)
           | Untyped => (gs, Unknown)
           end
       | _ => acc
       end)
    (map (fun '(gid, state) => (str_of_int gid, state_to_json state)) l)
    (before, Returned)
  = (fold_left (fun gs '(gid, state) => <[gid := reloaded now state]> gs)
       l before,
     Returned).
Proof.
  revert before. induction l as [|[gid state] l IH]; intros before;
    [reflexivity|].
  cbn [map fold_left]. rewrite load_entry_saved. apply IH.
Qed.

(** Reading back what [save_state] wrote. *)
Lemma load_state_saved (now : Q) (group_states before : gmap Z GroupState) :
  load_state now (Some (save_state group_states)) before
  = (fold_left (fun gs '(gid, state) => <[gid := reloaded now state]> gs)
       (map_to_list group_states) before,
     Returned).
Proof.
  unfold load_state, save_state.
  rewrite py_dict_id by apply saved_keys_NoDup, NoDup_fst_map_to_list.
  apply load_fold_saved.
Qed.

Lemma fold_insert_other {V W : Type} (f : V -> W) (l : list (Z * V))
    (m : gmap Z W) (k : Z) :
  k ∉ l.*1 ->
  fold_left (fun gs '(gid, v) => <[gid := f v]> gs) l m !! k = m !! k.
Proof.
  revert m. induction l as [|[k' v'] l IH]; intros m Hk; [reflexivity|].
  cbn [fold_left]. rewrite fmap_cons in Hk. apply not_elem_of_cons in Hk as [Hne Hk].
  rewrite IH by exact Hk. simpl in Hne. now rewrite lookup_insert_ne.
Qed.

Lemma fold_insert_lookup {V W : Type} (f : V -> W) (l : list (Z * V))
    (m : gmap Z W) (k : Z) (v : V) :
  NoDup l.*1 -> (k, v) ∈ l ->
  fold_left (fun gs '(gid, v) => <[gid := f v]> gs) l m !! k = Some (f v).
Proof.
  revert m. induction l as [|[k' v'] l IH]; intros m Hnd Hin.
  - now apply elem_of_nil in Hin.
  - rewrite fmap_cons in Hnd. apply NoDup_cons in Hnd as [Hk' Hnd].
    cbn [fold_left]. apply elem_of_cons in Hin as [[= <- <-] | Hin].
    + rewrite fold_insert_other by exact Hk'. apply lookup_insert_eq.
    + now apply IH.
Qed.

(** C5: what [save_state] writes for a group, [load_state] reads back
    under the same key: the same preset name, group prompt, reasoning
    flag and time stamp, and, for a history deque that has the configured
    bound (as every deque the program builds has), the same history.  The
    queue, the [processing] flag and the pending events are not in the file
    and come back as [GroupState()] makes them. *)
Theorem snapshot_roundtrip (now : Q)
    (group_states before : gmap Z GroupState) (gid : Z)
    (state : GroupState) :
  group_states !! gid = Some state ->
  Deque.maxlen (history state) = history_size plugin_config ->
  Deque.wf (history state) ->
  exists loaded state',
    load_state now (Some (save_state group_states)) before
    = (loaded, Returned)
    /\ loaded !! gid = Some state'
    /\ history state' = history state
    /\ preset_name state' = preset_name state
    /\ group_prompt state' = group_prompt state
    /\ output_reasoning_content state' = output_reasoning_content state
    /\ last_active state' = last_active state
    /\ queue state' = []
    /\ processing state' = false
    /\ past_events state' = Deque.empty (past_events_size plugin_config).
Proof.
  intros Hgid Hmax Hwf.
  eexists. exists (reloaded now state).
  split; [apply load_state_saved|].
  split.
  { apply fold_insert_lookup.
    - apply NoDup_fst_map_to_list.
    - now apply elem_of_map_to_list. }
  split; [|simpl; auto 10].
  simpl.
  destruct (deque_of_list_spec (Deque.items (history state))
              (history_size plugin_config)) as (_ & Hm & Hi).
  destruct (Deque.of_list _ _) as [m its], (history state) as [m0 its0].
  simpl in *. unfold Deque.wf in Hwf; simpl in Hwf. subst m m0 its.
  now replace (length its0 - history_size plugin_config) with 0 by lia.
Qed.

(** * Further facts *)

(** ** Text search and the think block *)

Lemma startswith_app (p r : pystr) : startswith p (p ++ r) = true.
Proof.
  induction p as [|a p IH]; simpl; [reflexivity|].
  unfold char_eqb. now rewrite N.eqb_refl.
Qed.

Lemma startswith_true (p s : pystr) :
  startswith p s = true -> s = p ++ skipn (length p) s.
Proof.
  revert s. induction p as [|a p IH]; intros [|b s] H; simpl in *;
    try reflexivity; try discriminate.
  apply andb_prop in H as [Hab H]. apply N.eqb_eq in Hab. subst b.
  f_equal. now apply IH.
Qed.

Lemma find_first_sound (pat s before after : pystr) :
  find_first pat s = Some (before, after) -> s = before ++ pat ++ after.
Proof.
  revert before. induction s as [|c s IH]; intros before H.
  - simpl in H. destruct (startswith pat []) eqn:E; [|discriminate].
    injection H as <- <-. now apply startswith_true.
  - cbn [find_first] in H.
    destruct (startswith pat (c :: s)) eqn:E.
    + injection H as <- <-. now apply startswith_true.
    + destruct (find_first pat s) as [[b a]|]; [|discriminate].
      injection H as <- <-. simpl. f_equal. now apply IH.
Qed.

Lemma find_first_complete (pat before after : pystr) :
  exists before' after',
    find_first pat (before ++ pat ++ after) = Some (before', after')
    /\ length before' <= length before.
Proof.
  induction before as [|c before IH].
  - exists [], (skipn (length pat) (pat ++ after)).
    split; [|simpl; lia]. simpl app.
    destruct (pat ++ after) eqn:E; cbn [find_first];
      rewrite <- E, startswith_app; reflexivity.
  - destruct IH as (b & a & Hf & Hlen).
    simpl app. cbn [find_first].
    destruct (startswith pat (c :: before ++ pat ++ after)).
    + eexists _, _. split; [reflexivity | simpl; lia].
    + rewrite Hf. eexists _, _. split; [reflexivity | simpl; lia].
Qed.

Lemma app_same_length {A : Type} (a b c d : list A) :
  a ++ b = c ++ d -> length a = length c -> a = c /\ b = d.
Proof.
  revert c. induction a as [|x a IH]; intros [|y c] H Hl;
    simpl in *; try discriminate; [auto|].
  injection H as -> H. injection Hl as Hl.
  destruct (IH c H Hl) as [-> ->]. auto.
Qed.

(** The regular expression of line 64: the group is the text between the
    opening tag at the very start and the first closing tag after it. *)
Theorem match_think_first_block (content inner : pystr) :
  match_think content = Some inner
  <-> exists after,
        content = think_open ++ inner ++ think_close ++ after
        /\ forall inner' after',
             content = think_open ++ inner' ++ think_close ++ after' ->
             length inner <= length inner'.
Proof.
  unfold match_think. split.
  - destruct (startswith think_open content) eqn:Hs; [|discriminate].
    apply startswith_true in Hs.
    destruct (find_first think_close (skipn (length think_open) content))
      as [[b a]|] eqn:Hf; [|discriminate].
    intros [= ->]. exists a.
    pose proof (find_first_sound _ _ _ _ Hf) as Hc.
    split; [now rewrite Hs at 1; rewrite Hc|].
    intros inner' after' Hc'.
    rewrite Hc' in Hf.
    replace (skipn (length think_open) (think_open ++ inner' ++ think_close ++ after'))
      with (inner' ++ think_close ++ after') in Hf
      by (now rewrite drop_app_length).
    destruct (find_first_complete think_close inner' after')
      as (b' & a' & Hf' & Hlen).
    rewrite Hf' in Hf. now injection Hf as -> _.
  - intros (after & -> & Hmin).
    rewrite startswith_app, drop_app_length.
    destruct (find_first_complete think_close inner after)
      as (b & a & Hf & Hlen).
    rewrite Hf. f_equal.
    pose proof (find_first_sound _ _ _ _ Hf) as Hc.
    assert (Hge : length inner <= length b)
      by (apply (Hmin b a); now rewrite <- Hc).
    symmetry. exact (proj1 (app_same_length _ _ _ _ Hc ltac:(lia))).
Qed.

(** A text that does not begin with a complete think block comes back as
    it is, with no reasoning: no opening tag at the start, or no closing
    tag after it. *)
Theorem pop_reasoning_content_no_block (content : pystr) :
  (forall inner after,
      content <> think_open ++ inner ++ think_close ++ after) ->
  pop_reasoning_content (Some content) = (Some content, None).
Proof.
  intros Hno. unfold pop_reasoning_content.
  destruct (match_think content) as [inner|] eqn:Hm; [|reflexivity].
  apply match_think_first_block in Hm as (after & Hc & _).
  now elim (Hno inner after).
Qed.

(** The reasoning returned for a non-empty first think block is its
    text, stripped. *)
Theorem pop_reasoning_content_reasoning (inner after : pystr) :
  inner <> [] ->
  (forall inner' after',
      inner ++ think_close ++ after = inner' ++ think_close ++ after' ->
      length inner <= length inner') ->
  (pop_reasoning_content
     (Some (think_open ++ inner ++ think_close ++ after))).2
  = Some (strip inner).
Proof.
  intros Hne Hmin.
  assert (Hm : match_think (think_open ++ inner ++ think_close ++ after)
               = Some inner).
  { apply match_think_first_block. exists after. split; [reflexivity|].
    intros inner' after' H. apply app_inv_head in H. eauto. }
  unfold pop_reasoning_content. rewrite Hm.
  destruct inner; [contradiction | reflexivity].
Qed.

(** ** Splitting a reply *)

Lemma split_from_skip (sep p t cur : pystr) :
  split_from sep (p ++ t) (length p) cur = split_from sep t 0 cur.
Proof.
  induction p as [|c p IH]; simpl; [|exact IH].
  destruct t; reflexivity.
Qed.

Lemma split_from_nonempty (sep s : pystr) (skip : nat) (cur : pystr) :
  split_from sep s skip cur <> [].
Proof.
  revert skip cur. induction s as [|c s IH]; intros skip cur; simpl;
    [discriminate|].
  destruct skip; [|apply IH].
  destruct (startswith sep (c :: s)); [discriminate | apply IH].
Qed.

Lemma join_cons (sep p : pystr) (rest : list pystr) :
  rest <> [] -> join sep (p :: rest) = p ++ sep ++ join sep rest.
Proof. destruct rest; [contradiction | reflexivity]. Qed.

Lemma join_split_from (sep : pystr) (n : nat) (s cur : pystr) :
  sep <> [] -> length s <= n ->
  join sep (split_from sep s 0 cur) = rev cur ++ s.
Proof.
  intros Hsep. revert s cur.
  induction n as [|n IH]; intros [|c s] cur Hn; simpl in Hn; try lia;
    try (simpl; now rewrite app_nil_r).
  cbn [split_from].
  destruct (startswith sep (c :: s)) eqn:Hs.
  - apply startswith_true in Hs.
    destruct sep as [|a sep]; [contradiction|].
    simpl in Hs. injection Hs as <- Hs.
    replace (length (c :: sep) - 1) with (length sep) by (simpl; lia).
    rewrite Hs, split_from_skip.
    rewrite join_cons by apply split_from_nonempty.
    rewrite IH.
    + reflexivity.
    + rewrite length_drop. lia.
  - rewrite IH by lia. simpl. now rewrite <- app_assoc.
Qed.

(** The pieces of [reply.split("<botbr>")] (line 256), joined by the
    separator, are the reply again: a split drops nothing but
    separators. *)
Theorem join_split (sep s : pystr) :
  sep <> [] -> join sep (split sep s) = s.
Proof.
  intros Hsep. unfold split.
  now rewrite (join_split_from sep (length s) s []) by auto.
Qed.

(** ** Stripped segments *)

Lemma lstrip_spec (s : pystr) :
  exists ws,
    s = ws ++ lstrip s
    /\ forallb is_whitespace ws = true
    /\ match lstrip s with
       | c :: _ => is_whitespace c = false
       | [] => True
       end.
Proof.
  induction s as [|c s (ws & Hs & Hws & Hhead)];
    [exists []; repeat split|].
  simpl. destruct (is_whitespace c) eqn:Hc.
  - exists (c :: ws). simpl. rewrite Hc, Hws. split; [now f_equal | auto].
  - exists []. simpl. rewrite Hc. auto.
Qed.

Lemma lstrip_nil (s : pystr) :
  lstrip s = [] <-> forallb is_whitespace s = true.
Proof.
  induction s as [|c s IH]; simpl; [tauto|].
  destruct (is_whitespace c); simpl; [exact IH|]. split; discriminate.
Qed.

(** [strip] cuts a run of whitespace off either end, and what is left
    neither starts nor ends with whitespace. *)
Lemma strip_spec (s : pystr) :
  exists ws1 ws2,
    s = ws1 ++ strip s ++ ws2
    /\ forallb is_whitespace ws1 = true
    /\ forallb is_whitespace ws2 = true
    /\ match strip s with
       | c :: _ => is_whitespace c = false
       | [] => True
       end
    /\ match rev (strip s) with
       | c :: _ => is_whitespace c = false
       | [] => True
       end.
Proof.
  destruct (lstrip_spec s) as (ws1 & Hs & Hws1 & Hhead).
  destruct (lstrip_spec (rev (lstrip s))) as (ws2 & Hr & Hws2 & Hlast).
  unfold strip, rstrip.
  set (m := lstrip (rev (lstrip s))) in *.
  assert (Hl : lstrip s = rev m ++ rev ws2).
  { rewrite <- rev_app_distr, <- Hr. symmetry. apply rev_involutive. }
  exists ws1, (rev ws2).
  split; [now rewrite <- Hl|].
  split; [exact Hws1|].
  split.
  { rewrite forallb_forall in *. intros c Hc. apply Hws2. now apply in_rev. }
  split; [|now rewrite rev_involutive].
  rewrite Hl in Hhead.
  destruct (rev m) as [|c r] eqn:Hm; [exact I|]. exact Hhead.
Qed.

Lemma strip_nil (s : pystr) :
  strip s = [] <-> forallb is_whitespace s = true.
Proof.
  destruct (strip_spec s) as (ws1 & ws2 & Hs & H1 & H2 & _).
  split.
  - intros E. rewrite E in Hs. rewrite Hs. simpl.
    rewrite forallb_app. now rewrite H1, H2.
  - intros Hall. unfold strip, rstrip.
    apply (proj2 (lstrip_nil s)) in Hall. rewrite Hall. reflexivity.
Qed.

(** [strip] on a text that neither starts nor ends with whitespace. *)
Lemma strip_fixed (m : pystr) :
  match m with c :: _ => is_whitespace c = false | [] => True end ->
  match rev m with c :: _ => is_whitespace c = false | [] => True end ->
  strip m = m.
Proof.
  intros Hh Hl. unfold strip, rstrip.
  assert (E : lstrip m = m)
    by (destruct m as [|c m]; [reflexivity | simpl; now rewrite Hh]).
  rewrite E.
  assert (E' : lstrip (rev m) = rev m)
    by (destruct (rev m) as [|c r]; [reflexivity | simpl; now rewrite Hl]).
  rewrite E'. apply rev_involutive.
Qed.

(** ** Presets and settings *)

(** What [List.find] finds is the first element that passes the test. *)
Lemma find_is_first {A : Type} (f : A -> bool) (l : list A) (x : A) :
  List.find f l = Some x ->
  exists before after,
    l = before ++ x :: after
    /\ f x = true
    /\ Forall (fun y => f y = false) before.
Proof.
  induction l as [|a l IH]; simpl; [discriminate|].
  destruct (f a) eqn:E.
  - intros [= ->]. exists [], l. auto.
  - intros H. destruct (IH H) as (before & after & -> & Hx & Hb).
    exists (a :: before), after. auto.
Qed.

(** [get_preset] (lines 92-97) raises only when no preset is configured;
    otherwise it gives a configured preset: the first one of the list that
    carries the group's preset name (no preset before it in the list
    carries that name), or, when none does (the name is ["off"], say), the
    first of the list. *)
Theorem get_preset_fallback (st : GroupState) :
  (api_presets plugin_config = [] <-> get_preset st = None)
  /\ forall p,
       get_preset st = Some p ->
       In p (api_presets plugin_config)
       /\ ((exists before after,
              api_presets plugin_config = before ++ p :: after
              /\ name p = preset_name st
              /\ Forall (fun q => name q <> preset_name st) before)
           \/ (Forall (fun q => name q <> preset_name st)
                 (api_presets plugin_config)
               /\ List.head (api_presets plugin_config) = Some p)).
Proof.
  unfold get_preset. split.
  - split.
    + intros ->. reflexivity.
    + destruct (List.find _ _) eqn:E; [discriminate|].
      destruct (api_presets plugin_config); [reflexivity | discriminate].
  - intros p Hp.
    destruct (List.find _ (api_presets plugin_config)) as [q|] eqn:E.
    + injection Hp as <-. split; [now apply find_some in E|].
      left. apply find_is_first in E as (before & after & Hl & Hname & Hb).
      exists before, after. split; [exact Hl|].
      split; [now apply str_eqb_eq|].
      eapply Forall_impl; [exact Hb|].
      intros q' Hq Heq. apply str_eqb_eq in Heq. simpl in Hq. congruence.
    + split.
      * destruct (api_presets plugin_config); [discriminate|].
        injection Hp as <-. now left.
      * right. split; [|exact Hp].
        apply List.Forall_forall. intros q Hq Hname.
        pose proof (find_none _ _ E q Hq) as Hf. simpl in Hf.
        apply str_eqb_eq in Hname. congruence.
Qed.

(** The settings of a group: what the commands set. *)
Lemma loop_head_settings (st : GroupState) :
  let st' := seg_state (loop_head st) in
  preset_name st' = preset_name st /\ group_prompt st' = group_prompt st
  /\ output_reasoning_content st' = output_reasoning_content st
  /\ last_active st' = last_active st.
Proof.
  unfold loop_head. destruct (queue st); simpl; [auto|].
  destruct (_ <? 1); simpl; auto.
Qed.

Lemma send_segments_settings (st : GroupState) (pieces : list pystr)
    (reply : pystr) :
  let st' := seg_state (send_segments st pieces reply) in
  preset_name st' = preset_name st /\ group_prompt st' = group_prompt st
  /\ output_reasoning_content st' = output_reasoning_content st
  /\ last_active st' = last_active st.
Proof.
  induction pieces as [|r rest IH]; simpl.
  - apply (loop_head_settings (set_history _ st)).
  - destruct (_ || _); [exact IH | auto].
Qed.

Lemma resume_settings (p : pc) (k : wake) (st : GroupState) (seg : segment) :
  resume p k st = Some seg ->
  preset_name (seg_state seg) = preset_name st
  /\ group_prompt (seg_state seg) = group_prompt st
  /\ output_reasoning_content (seg_state seg) = output_reasoning_content st
  /\ last_active (seg_state seg) = last_active st.
Proof.
  intros Hr.
  assert (Hafter : forall st' reply,
             let st'' := seg_state (after_reasoning st' reply) in
             preset_name st'' = preset_name st'
             /\ group_prompt st'' = group_prompt st'
             /\ output_reasoning_content st'' = output_reasoning_content st'
             /\ last_active st'' = last_active st').
  { intros st' [reply|]; simpl; [apply send_segments_settings | auto]. }
  destruct p, k; simpl in Hr; try discriminate;
    try (injection Hr as <-);
    auto using loop_head_settings, send_segments_settings.
  - destruct (get_preset st); injection Hr as <-;
      [apply loop_head_settings | simpl; auto].
  - unfold on_model_result. destruct result as [response | e]; [|simpl; auto].
    destruct (choices response) as [|message ?]; [simpl; auto|].
    destruct (pop_reasoning_content _) as [reply matched].
    destruct (_ && _); [simpl; auto|].
    apply (Hafter (set_past_events _ (set_history _ st))).
Qed.

Lemma is_triggered_settings (st : GroupState) (event : Event) (rnd : Q) :
  let st' := (is_triggered st event rnd).2 in
  group_prompt st' = group_prompt st
  /\ output_reasoning_content st' = output_reasoning_content st
  /\ last_active st' = last_active st.
Proof.
  unfold is_triggered.
  destruct (str_eqb _ _); [simpl; auto|].
  destruct (is_tome event); [simpl; auto|].
  destruct (Qlt_bool _ _); simpl; auto.
Qed.

Lemma step_settings (l : label) (s s' : sys) :
  step l s = Some s' ->
  last_active (gstate s') = last_active (gstate s)
  /\ (is_command l = false ->
      preset_name (gstate s') = preset_name (gstate s)
      /\ group_prompt (gstate s') = group_prompt (gstate s)
      /\ output_reasoning_content (gstate s')
         = output_reasoning_content (gstate s)).
Proof.
  intros Hs. destruct l as [event rnd | arg | arg | | | w k]; simpl in Hs.
  - injection Hs as <-. unfold on_message.
    pose proof (is_triggered_frame (gstate s) event rnd) as (_ & _ & _ & Hn).
    pose proof (is_triggered_settings (gstate s) event rnd) as (Hg & Ho & Hl).
    destruct (is_triggered _ _ _) as [triggered st]; simpl in Hn, Hg, Ho, Hl.
    destruct triggered; simpl; [|auto].
    unfold handle_message; simpl. destruct (negb _); simpl; auto.
  - injection Hs as <-. simpl. split; [|discriminate].
    unfold handle_preset.
    destruct (str_eqb _ _); [reflexivity|].
    destruct (existsb _ _); reflexivity.
  - injection Hs as <-. simpl. split; [reflexivity | discriminate].
  - injection Hs as <-. simpl. split; [reflexivity | discriminate].
  - injection Hs as <-. simpl. split; [reflexivity | discriminate].
  - destruct (tasks s !! w) as [p|]; [|discriminate].
    destruct (resume p k (gstate s)) as [seg|] eqn:Hr; [|discriminate].
    injection Hs as <-. simpl.
    destruct (resume_settings _ _ _ _ Hr) as (? & ? & ? & ?). auto.
Qed.

(** Nothing refreshes [last_active]: along every run it keeps the value
    the group was created or reloaded with.  And a run without commands
    (arrivals and the worker only) leaves the preset name, the group
    prompt and the reasoning switch as they are. *)
Theorem settings_only_change_by_command (tr : list label) (s s' : sys) :
  run tr s = Some s' ->
  last_active (gstate s') = last_active (gstate s)
  /\ (forallb (fun l => negb (is_command l)) tr = true ->
      preset_name (gstate s') = preset_name (gstate s)
      /\ group_prompt (gstate s') = group_prompt (gstate s)
      /\ output_reasoning_content (gstate s')
         = output_reasoning_content (gstate s)).
Proof.
  revert s. induction tr as [|l tr IH]; intros s Hr; simpl in Hr.
  - injection Hr as <-. auto.
  - destruct (step l s) as [s1|] eqn:Hs; [|discriminate].
    destruct (step_settings _ _ _ Hs) as [Hl Hc].
    destruct (IH _ Hr) as [Hl' Hc'].
    split; [congruence|]. simpl. intros Hall.
    apply andb_prop in Hall as [Hcmd Hall].
    apply negb_true_iff in Hcmd.
    destruct (Hc Hcmd) as (? & ? & ?). destruct (Hc' Hall) as (? & ? & ?).
    repeat split; congruence.
Qed.

Lemma step_preset_name (l : label) (s s' : sys) :
  step l s = Some s' ->
  preset_name (gstate s') = preset_name (gstate s)
  \/ preset_name (gstate s') = off
  \/ In (preset_name (gstate s')) (map name (api_presets plugin_config)).
Proof.
  intros Hs.
  destruct (is_command l) eqn:Hc;
    [|left; now apply (proj2 (step_settings _ _ _ Hs))].
  destruct l as [event rnd | arg | arg | | | w k]; try discriminate;
    simpl in Hs; injection Hs as <-; simpl; auto.
  unfold handle_preset.
  destruct (str_eqb (strip arg) off) eqn:E.
  - apply str_eqb_eq in E. simpl. auto.
  - destruct (existsb _ _) eqn:Ex; [|auto].
    apply existsb_exists in Ex as (p & Hp & Hn). apply str_eqb_eq in Hn.
    simpl. right. right. rewrite Hn. now apply in_map.
Qed.

(** [handle_preset] (lines 289-306) accepts ["off"] and the names of the
    configured presets, nothing else: along every run the preset name of
    a group is the one it started with, ["off"], or the name of a
    configured preset. *)
Theorem preset_name_stays_known (tr : list label) (s s' : sys) :
  run tr s = Some s' ->
  preset_name (gstate s') = preset_name (gstate s)
  \/ preset_name (gstate s') = off
  \/ In (preset_name (gstate s')) (map name (api_presets plugin_config)).
Proof.
  revert s. induction tr as [|l tr IH]; intros s Hr; simpl in Hr.
  - injection Hr as <-. auto.
  - destruct (step l s) as [s1|] eqn:Hs; [|discriminate].
    destruct (IH _ Hr) as [H | H]; [|auto].
    rewrite H. now apply (step_preset_name l s).
Qed.

(** ** More on the worker *)

(** The [for] loop of lines 256-266, run to its end for worker [w]: what
    goes out are the stripped non-blank pieces of the split, in order,
    none of them empty or with whitespace at an end; then the reply is
    stored whole (line 269) and the worker is at the loop test. *)
Theorem for_loop_sends_stripped_pieces (st : GroupState) (l : list pc)
    (o : list pystr) (w : nat) (pieces : list pystr) (reply : pystr) :
  w < length l ->
  run (flat_map (fun _ => [Wake w SleepDone; Wake w SendDone])
         (outbound_segments pieces))
    (apply_segment (mkSys st l o) w (send_segments st pieces reply))
  = Some
      (apply_segment (mkSys st l (o ++ outbound_segments pieces)) w
         (loop_head
            (set_history
               (Deque.append (mkTurn role_assistant reply) (history st)) st)))
  /\ Forall
       (fun m => m <> [] /\ strip m = m /\ exists r, In r pieces /\ m = strip r)
       (outbound_segments pieces).
Proof.
  intros Hw. split; [now apply run_send_segments|].
  unfold outbound_segments. apply List.Forall_forall. intros m Hm.
  apply in_map_iff in Hm as (r & <- & Hr).
  apply filter_In in Hr as [Hin Hguard].
  apply negb_true_iff, orb_false_iff in Hguard as [Hlen Hsp].
  destruct (strip_spec r) as (ws1 & ws2 & Hs & H1 & H2 & Hh & Hl).
  split; [|split; [now apply strip_fixed | eauto]].
  intros Hnil. apply strip_nil in Hnil.
  destruct r as [|c r]; [discriminate|].
  unfold isspace in Hsp. congruence.
Qed.

(** A reset before a worker reaches the loop test cancels its batch
    (lines 216-218): the worker takes one event off the queue, finds
    nothing pending, calls no model, sends nothing, and ends with the flag
    cleared. *)
Theorem reset_cancels_batch (s : sys) (w : nat) (event : Event)
    (q : list Event) :
  api_presets plugin_config <> [] ->
  tasks s !! w = Some PcStart ->
  queue (gstate s) = event :: q ->
  exists s',
    run [CmdReset; Wake w Scheduled] s = Some s'
    /\ tasks s' = delete w (tasks s)
    /\ processing (gstate s') = false
    /\ queue (gstate s') = q
    /\ Deque.items (history (gstate s')) = []
    /\ Deque.items (past_events (gstate s')) = []
    /\ outbox s' = outbox s.
Proof.
  intros Hcfg Hw Hq. eexists. split.
  - pose proof (get_preset_some (handle_reset (gstate s)) Hcfg) as Hg.
    simpl. rewrite Hw. simpl.
    destruct (get_preset (handle_reset (gstate s))); [|contradiction].
    unfold loop_head. simpl. rewrite Hq. simpl. reflexivity.
  - simpl. rewrite app_nil_r. auto 10.
Qed.

(** The prompt of a group (line 207 with lines 317-323): a prompt set to
    a blank text counts as none, and the system prompt falls back to the
    default prompt; any other text is used stripped. *)
Theorem blank_prompt_falls_back (st : GroupState) (arg : pystr) :
  systemPrompt (handle_edit_preset st arg)
  = instructions
    ++ (if forallb is_whitespace arg
        then default_prompt plugin_config
        else strip arg)
    ++ [10%N].
Proof.
  unfold systemPrompt, handle_edit_preset, py_or. simpl.
  destruct (forallb is_whitespace arg) eqn:E.
  - apply strip_nil in E. rewrite E. reflexivity.
  - destruct (strip arg) eqn:Es; [|reflexivity].
    apply strip_nil in Es. congruence.
Qed.

(** An answer without choices (the [IndexError] of line 242): the model
    call has succeeded, so the user turn of the batch is already in the
    history and the pending events are already cleared when the worker
    reports the failure; no assistant turn follows. *)
Theorem answer_without_choices (s : sys) (w : nat) (messages : list Turn)
    (text : pystr) :
  tasks s !! w = Some (PcModel messages text) ->
  exists s',
    step (Wake w (ModelDone (ModelOk (mkCompletion [])))) s = Some s'
    /\ history (gstate s')
       = Deque.append (mkTurn role_user text) (history (gstate s))
    /\ Deque.items (past_events (gstate s')) = []
    /\ outbox s' = outbox s ++ [failure_message index_error]
    /\ tasks s' = <[w := PcSendFail]> (tasks s).
Proof.
  intros Hw. eexists. split; [simpl; rewrite Hw; reflexivity|].
  simpl. auto.
Qed.

(** An answer whose text is [None] (the [assert] of line 252): the
    reasoning is still shown when it is to be shown, then the assertion
    fails; the user turn is in the history, the pending events are
    cleared, the failure message goes out with no error text, and no
    assistant turn follows. *)
Theorem answer_without_text (s : sys) (w : nat) (messages : list Turn)
    (text : pystr) (message : ChatMessage) (others : list ChatMessage) :
  tasks s !! w = Some (PcModel messages text) ->
  msg_content message = None ->
  let emitted :=
    if output_reasoning_content (gstate s)
       && truthy (msg_reasoning_content message)
    then match msg_reasoning_content message with
         | Some t => [t]
         | None => []
         end
    else [] in
  exists s',
    run (Wake w (ModelDone (ModelOk (mkCompletion (message :: others))))
         :: map (fun _ => Wake w SendDone) emitted) s = Some s'
    /\ history (gstate s')
       = Deque.append (mkTurn role_user text) (history (gstate s))
    /\ Deque.items (past_events (gstate s')) = []
    /\ outbox s' = outbox s ++ emitted ++ [unavailable]
    /\ tasks s' = <[w := PcSendFail]> (tasks s).
Proof.
  intros Hw Hnone emitted.
  assert (Hlt : w < length (tasks s)) by (eapply lookup_lt_Some; eauto).
  assert (Hstep :
    step (Wake w (ModelDone (ModelOk (mkCompletion (message :: others))))) s
    = Some (apply_segment s w
              (on_model_result (gstate s) text
                 (ModelOk (mkCompletion (message :: others))))))
    by (simpl; now rewrite Hw).
  subst emitted. cbn [run]. rewrite Hstep. clear Hstep.
  unfold on_model_result. cbn [choices]. rewrite Hnone.
  cbn [pop_reasoning_content]. unfold py_or.
  destruct (truthy (msg_reasoning_content message)) eqn:Ht.
  - destruct (msg_reasoning_content message) as [[|c t]|];
      try discriminate.
    cbn [output_reasoning_content set_past_events set_history].
    destruct (output_reasoning_content (gstate s)); simpl.
    + rewrite list_lookup_insert_eq by exact Hlt. simpl.
      eexists. split; [reflexivity|]. simpl.
      rewrite list_insert_insert_eq, <- app_assoc.
      repeat split; reflexivity.
    + eexists. split; [reflexivity|]. simpl. repeat split; reflexivity.
  - cbn [output_reasoning_content set_past_events set_history].
    destruct (output_reasoning_content (gstate s)); simpl;
      (eexists; split; [reflexivity|]; simpl; repeat split; reflexivity).
Qed.

Lemma step_stuck (l : label) (s s' : sys) :
  tasks s = [] -> processing (gstate s) = true ->
  step l s = Some s' ->
  tasks s' = [] /\ processing (gstate s') = true /\ outbox s' = outbox s.
Proof.
  intros Ht Hp Hs. destruct l as [event rnd | arg | arg | | | w k];
    simpl in Hs.
  - injection Hs as <-. unfold on_message.
    pose proof (is_triggered_frame (gstate s) event rnd) as (Hp' & _).
    destruct (is_triggered _ _ _) as [triggered st]; simpl in Hp'.
    rewrite Hp in Hp'.
    destruct triggered; simpl; [|auto].
    unfold handle_message; simpl. rewrite Hp'. simpl. auto.
  - injection Hs as <-. simpl. unfold handle_preset.
    destruct (str_eqb _ _); [auto|]. destruct (existsb _ _); auto.
  - injection Hs as <-. simpl. auto.
  - injection Hs as <-. simpl. auto.
  - injection Hs as <-. simpl. auto.
  - rewrite Ht in Hs. discriminate.
Qed.

Lemma run_stuck (tr : list label) (s s' : sys) :
  tasks s = [] -> processing (gstate s) = true ->
  run tr s = Some s' ->
  tasks s' = [] /\ processing (gstate s') = true /\ outbox s' = outbox s.
Proof.
  revert s. induction tr as [|l tr IH]; intros s Ht Hp Hr; simpl in Hr.
  - injection Hr as <-. auto.
  - destruct (step l s) as [s1|] eqn:Hs; [|discriminate].
    destruct (step_stuck _ _ _ Ht Hp Hs) as (Ht1 & Hp1 & Ho1).
    destruct (IH _ Ht1 Hp1 Hr) as (? & ? & ?).
    repeat split; congruence.
Qed.

(** With no preset configured (lines 97 and 178), the first accepted
    event of an idle group sets the flag and starts a worker that dies in
    [get_preset], outside the [try]; the flag then stays set for good:
    whatever arrives afterwards, no worker is started and nothing is ever
    sent. *)
Theorem no_preset_sticks (s : sys) (event : Event) (rnd : Q)
    (tr : list label) (s' : sys) :
  api_presets plugin_config = [] ->
  tasks s = [] ->
  processing (gstate s) = false ->
  (is_triggered (gstate s) event rnd).1 = true ->
  run (Inbound event rnd :: Wake 0 Scheduled :: tr) s = Some s' ->
  tasks s' = [] /\ processing (gstate s') = true /\ outbox s' = outbox s.
Proof.
  intros Hcfg Ht Hp Htrig Hrun.
  change (Inbound event rnd :: Wake 0 Scheduled :: tr)
    with ([Inbound event rnd; Wake 0 Scheduled] ++ tr) in Hrun.
  rewrite run_app in Hrun.
  destruct (run [Inbound event rnd; Wake 0 Scheduled] s) as [s1|] eqn:H1;
    [|discriminate].
  assert (Hs1 : tasks s1 = [] /\ processing (gstate s1) = true
                /\ outbox s1 = outbox s).
  { simpl in H1. unfold on_message in H1.
    pose proof (is_triggered_frame (gstate s) event rnd) as (Hp' & _).
    destruct (is_triggered _ _ _) as [triggered st]; simpl in Htrig, Hp'.
    subst triggered. unfold handle_message in H1; simpl in H1.
    rewrite Hp', Hp, Ht in H1. simpl in H1.
    unfold get_preset in H1; simpl in H1. rewrite Hcfg in H1. simpl in H1.
    injection H1 as <-. simpl. rewrite app_nil_r. auto. }
  destruct Hs1 as (Ht1 & Hp1 & Ho1).
  destruct (run_stuck _ _ _ Ht1 Hp1 Hrun) as (? & ? & ?).
  repeat split; congruence.
Qed.

(** ** What a batch holds *)






(** ** The number of model calls *)

Lemma loop_head_budget (st : GroupState) : block_budget st (loop_head st).
Proof.
  unfold block_budget, loop_head.
  destruct (queue st) eqn:E; simpl; rewrite ?E; simpl; [lia|].
  destruct (_ <? 1); simpl; lia.
Qed.

Lemma send_segments_budget (st : GroupState) (pieces : list pystr)
    (reply : pystr) :
  block_budget st (send_segments st pieces reply).
Proof.
  induction pieces as [|r rest IH]; simpl.
  - apply (loop_head_budget (set_history _ st)).
  - destruct (_ || _); [exact IH|]. unfold block_budget; simpl; lia.
Qed.

Lemma resume_budget (p : pc) (k : wake) (st : GroupState) (seg : segment) :
  resume p k st = Some seg ->
  block_budget st seg
  /\ in_call p = (if is_model_return (Wake 0 k) then 1 else 0).
Proof.
  intros Hr.
  assert (Hflat : forall st' e,
             queue st' = queue st -> block_budget st (report_failure st' e))
    by (intros st' e E; unfold block_budget; simpl; rewrite E; lia).
  assert (Hseg : forall st' pieces reply,
             queue st' = queue st ->
             block_budget st (send_segments st' pieces reply)).
  { intros st' pieces reply E.
    pose proof (send_segments_budget st' pieces reply) as H.
    unfold block_budget in *. now rewrite <- E. }
  split.
  - destruct p, k; simpl in Hr; try discriminate.
    + destruct (get_preset st); injection Hr as <-;
        [apply loop_head_budget | unfold block_budget; simpl; lia].
    + injection Hr as <-. unfold on_model_result.
      destruct result as [response | e]; [|now apply Hflat].
      destruct (choices response) as [|message ?]; [now apply Hflat|].
      destruct (pop_reasoning_content _) as [[reply|] matched];
        (destruct (_ && _); [unfold block_budget; simpl; lia|]);
        simpl; [now apply Hseg | now apply Hflat].
    + injection Hr as <-.
      destruct reply; simpl; [now apply Hseg | now apply Hflat].
    + injection Hr as <-. unfold block_budget; simpl; lia.
    + injection Hr as <-. now apply Hseg.
    + injection Hr as <-. apply loop_head_budget.
  - destruct p, k; simpl in Hr; try discriminate; reflexivity.
Qed.

Lemma list_sum_insert (f : pc -> nat) (l : list pc) (w : nat) (p p' : pc) :
  l !! w = Some p ->
  list_sum (map f (<[w := p']> l)) + f p = list_sum (map f l) + f p'.
Proof.
  revert w. induction l as [|x l IH]; intros [|w] H; simpl in *;
    try discriminate.
  - injection H as ->. lia.
  - specialize (IH w H). lia.
Qed.

Lemma list_sum_delete (f : pc -> nat) (l : list pc) (w : nat) (p : pc) :
  l !! w = Some p ->
  list_sum (map f (delete w l)) + f p = list_sum (map f l).
Proof.
  revert w. induction l as [|x l IH]; intros [|w] H; simpl in *;
    try discriminate.
  - injection H as ->. lia.
  - specialize (IH w H). lia.
Qed.

Lemma step_budget (l : label) (s s' : sys) :
  is_inbound l = false ->
  step l s = Some s' ->
  (if is_model_return l then 1 else 0) + budget s' <= budget s.
Proof.
  intros Hin Hs. unfold budget.
  destruct l as [event rnd | arg | arg | | | w k]; try discriminate;
    simpl in Hs.
  - injection Hs as <-. simpl. unfold handle_preset.
    destruct (str_eqb _ _); [simpl; lia|]. destruct (existsb _ _); simpl; lia.
  - injection Hs as <-. simpl. lia.
  - injection Hs as <-. simpl. lia.
  - injection Hs as <-. simpl. lia.
  - destruct (tasks s !! w) as [p|] eqn:Hw; [|discriminate].
    destruct (resume p k (gstate s)) as [seg|] eqn:Hr; [|discriminate].
    injection Hs as <-.
    destruct (resume_budget _ _ _ _ Hr) as [Hb Hp].
    unfold block_budget in Hb. unfold apply_segment; cbn [gstate tasks].
    change (is_model_return (Wake w k)) with (is_model_return (Wake 0 k)).
    rewrite <- Hp.
    destruct (seg_next seg) as [p'|].
    + pose proof (list_sum_insert in_call _ _ _ p' Hw). lia.
    + pose proof (list_sum_delete in_call _ _ _ Hw). lia.
Qed.

(** The loop of the worker takes one event off the queue for each model
    call (lines 190-191): in a run without arrivals, the model calls that
    return are at most the events that were queued plus the calls that
    were in flight, and each one uses up one unit of that budget. *)
Theorem model_calls_bounded (tr : list label) (s s' : sys) :
  forallb (fun l => negb (is_inbound l)) tr = true ->
  run tr s = Some s' ->
  length (List.filter is_model_return tr) + budget s' <= budget s.
Proof.
  revert s. induction tr as [|l tr IH]; intros s Hall Hr; simpl in *.
  - injection Hr as <-. lia.
  - apply andb_prop in Hall as [Hl Hall]. apply negb_true_iff in Hl.
    destruct (step l s) as [s1|] eqn:Hs; [|discriminate].
    pose proof (step_budget _ _ _ Hl Hs) as H1.
    pose proof (IH _ Hall Hr) as H2.
    destruct (is_model_return l); simpl; lia.
Qed.

(** ** More on snapshots *)

(** Groups that are not in the file keep the state they have:
    [load_state] only assigns the keys it reads (line 408). *)
Theorem load_state_keeps_other_groups (now : Q)
    (group_states before : gmap Z GroupState) (gid : Z) :
  group_states !! gid = None ->
  (load_state now (Some (save_state group_states)) before).1 !! gid
  = before !! gid.
Proof.
  intros Hnone. rewrite load_state_saved. simpl.
  apply fold_insert_other. intros Hin.
  apply list_elem_of_fmap in Hin as ([k v] & -> & Hin).
  apply elem_of_map_to_list in Hin. simpl in Hnone. congruence.
Qed.

(** In the file every group has its own member: the keys [str(gid)] are
    pairwise different, there are as many members as groups, and the
    member found under [str(gid)] is the record of group [gid]. *)
Theorem save_state_one_member_per_group
    (group_states : gmap Z GroupState) :
  exists members,
    save_state group_states = JObject members
    /\ NoDup (map fst members)
    /\ length members = size group_states
    /\ forall gid state,
         group_states !! gid = Some state ->
         member (str_of_int gid) members = Some (state_to_json state).
Proof.
  unfold save_state. eexists. split; [reflexivity|].
  pose proof (NoDup_fst_map_to_list group_states) as Hnd.
  assert (Hin : forall gid state,
             group_states !! gid = Some state ->
             (gid, state) ∈ map_to_list group_states)
    by (intros; now apply elem_of_map_to_list).
  rewrite length_map, length_map_to_list.
  generalize dependent (map_to_list group_states). intros l Hnd Hin.
  split; [|split; [reflexivity|]].
  - clear Hin. induction l as [|[k v] l IH]; [constructor|].
    rewrite fmap_cons in Hnd. apply NoDup_cons in Hnd as [Hk Hnd].
    simpl. apply NoDup_cons. split; [|now apply IH].
    intros Hin. apply list_elem_of_In in Hin.
    rewrite map_map in Hin. apply in_map_iff in Hin as ([k' v'] & Heq & Hin).
    simpl in Heq. apply str_of_int_inj in Heq. subst k'.
    apply Hk. apply list_elem_of_fmap. exists (k, v').
    split; [reflexivity | now apply list_elem_of_In].
  - intros gid state Hg. specialize (Hin gid state Hg). clear Hg.
    induction l as [|[k v] l IH]; [now apply elem_of_nil in Hin|].
    rewrite fmap_cons in Hnd. apply NoDup_cons in Hnd as [Hk Hnd].
    simpl. destruct (str_eqb (str_of_int k) (str_of_int gid)) eqn:E.
    + apply str_eqb_eq, str_of_int_inj in E. subst k.
      apply elem_of_cons in Hin as [[= <-] | Hin]; [reflexivity|].
      elim Hk. apply list_elem_of_fmap. now exists (gid, state).
    + apply elem_of_cons in Hin as [[= <- <-] | Hin].
      * assert (str_eqb (str_of_int gid) (str_of_int gid) = true)
          by now apply str_eqb_eq.
        congruence.
      * now apply IH.
Qed.

(** A record that lacks one of the five keys makes the loop body raise
    ([KeyError] at the missing key, unless an earlier statement has raised
    already; lines 401-407), whatever else it holds. *)
Theorem load_entry_needs_every_key (now : Q) (gid : pystr)
    (m : list (pystr * json)) (key : pystr) :
  In key
    [py "preset"; py "history"; py "last_active"; py "group_prompt";
     py "output_reasoning_content"] ->
  member key m = None ->
  load_entry now gid (JObject m) = Raises.
Proof.
  intros Hkey Hnone. apply py_dict_member_none in Hnone.
  unfold load_entry, subscript.
  destruct Hkey as [<- | [<- | [<- | [<- | [<- | []]]]]];
    rewrite Hnone;
    repeat match goal with
           | |- context [member ?k (py_dict m)] =>
               destruct (member k (py_dict m))
           end;
    try reflexivity;
    match goal with
    | |- context [deque_of_json ?j _] => destruct j
    end;
    reflexivity.
Qed.






End Pipeline.

(** * A concrete group

    Events are numbers, every event mentions the bot, and one preset is
    configured; the history holds four turns and the pending events
    three. *)

Module Sample.

Definition plugin_config : Config :=
  mkConfig [mkPreset (py "default") (py "some-model")] (py "default")
    4 3 0 (py "be brief").

Definition is_tome (event : nat) : bool := true.

Definition format_message (event : nat) : pystr :=
  py "E" ++ str_of_int (Z.of_nat event).

Definition instructions : pystr := py "rules: ".

Abbreviation run :=
  (run nat is_tome format_message plugin_config instructions).
Abbreviation step :=
  (step nat is_tome format_message plugin_config instructions).
Abbreviation Inbound := (Inbound nat).
Abbreviation Wake := (Wake nat).

(** A new group. *)
Definition fresh : sys nat := init_sys nat plugin_config 0.

(** An answer of the backend with the text [text] and no reasoning
    attribute. *)
Definition answer (text : string) : model_result :=
  ModelOk (mkCompletion [mkMessage (Some (py text)) None]).

(** Three events arrive in a burst; the second and the third come in while
    the model call for the first is in flight. *)
Definition burst : list (label nat) :=
  [Inbound 1 0; Wake 0 Scheduled; Inbound 2 0; Inbound 3 0;
   Wake 0 (ModelDone (answer "ok")); Wake 0 SleepDone; Wake 0 SendDone].

(** C4, as stated, fails on [burst].  The worker answers the batch it
    built from event 1, clears the pending events (2 and 3 among them),
    takes event 2 off the queue, finds nothing pending and ends at the
    [break] of line 218.  Event 3 is then on the queue of a group with no
    worker and a cleared flag; neither its text nor that of event 2 is in
    the history or among the pending events; and as long as no further
    event is submitted, nothing takes it off the queue. *)
Lemma burst_strands_an_event :
  exists s,
    run burst fresh = Some s
    /\ tasks nat s = []
    /\ processing nat (gstate nat s) = false
    /\ queue nat (gstate nat s) = [3]
    /\ Deque.items (past_events nat (gstate nat s)) = []
    /\ Deque.items (history nat (gstate nat s))
       = [mkTurn role_user (py "E1"); mkTurn role_assistant (py "ok")]
    /\ outbox nat s = [py "ok"]
    /\ forall tr s',
         forallb (fun l => negb (is_inbound nat l)) tr = true ->
         run tr s = Some s' ->
         tasks nat s' = [] /\ queue nat (gstate nat s') = [3].
Proof.
  eexists. split; [vm_compute; reflexivity|].
  repeat (split; [reflexivity|]).
  intros tr s' Hno Hrun.
  eapply (idle_queue_stays nat is_tome format_message plugin_config
            instructions tr _ s') in Hrun; [exact Hrun | reflexivity | exact Hno].
Qed.


(** Three batches in a row, each answered. *)
Definition three_batches : list (label nat) :=
  [Inbound 1 0; Wake 0 Scheduled;
   Wake 0 (ModelDone (answer "hi<botbr>there"));
   Wake 0 SleepDone; Wake 0 SendDone; Wake 0 SleepDone; Wake 0 SendDone;
   Inbound 2 0; Wake 0 Scheduled;
   Wake 0 (ModelDone (answer "bye"));
   Wake 0 SleepDone; Wake 0 SendDone;
   Inbound 3 0; Wake 0 Scheduled;
   Wake 0 (ModelDone (answer "again"));
   Wake 0 SleepDone; Wake 0 SendDone].

(** [history_alternates] on [three_batches]: six turns are appended, the
    deque keeps the newest four. *)
Lemma history_alternates_witness :
  exists s',
    run three_batches fresh = Some s'
    /\ Deque.items (history nat (gstate nat s'))
       = [mkTurn role_user (py "E2"); mkTurn role_assistant (py "bye");
          mkTurn role_user (py "E3"); mkTurn role_assistant (py "again")]
    /\ dialogue (Deque.items (history nat (gstate nat s')))
    /\ alternating (Deque.items (history nat (gstate nat s'))) = true.
Proof.
  eexists. split; [vm_compute; reflexivity|]. split; [reflexivity|].
  apply (history_alternates nat is_tome format_message plugin_config
           instructions three_batches fresh).
  - reflexivity.
  - reflexivity.
  - constructor.
  - reflexivity.
  - discriminate.
  - reflexivity.
  - vm_compute; reflexivity.
Defined.

(** [deques_stay_bounded] on the same run. *)
Lemma deques_stay_bounded_witness :
  exists s',
    run three_batches fresh = Some s'
    /\ length (Deque.items (history nat (gstate nat s'))) <= 4
    /\ length (Deque.items (past_events nat (gstate nat s'))) <= 3.
Proof.
  destruct (deques_stay_bounded nat is_tome format_message plugin_config
              instructions) as (Hinit & _ & _ & Hrun & Hlen & _).
  eexists. split; [vm_compute; reflexivity|].
  apply Hlen.
  apply (Hrun three_batches fresh); [apply Hinit | vm_compute; reflexivity].
Defined.

(** [single_flight_dispatch] on [burst]. *)
Lemma single_flight_dispatch_witness :
  exists s',
    run burst fresh = Some s'
    /\ length (tasks nat s') <= 1
    /\ (processing nat (gstate nat s') = true <-> tasks nat s' <> [])
    /\ forall event,
         length (tasks nat (handle_message nat s' event)) = 1
         /\ processing nat (gstate nat (handle_message nat s' event)) = true
         /\ queue nat (gstate nat (handle_message nat s' event))
            = queue nat (gstate nat s') ++ [event].
Proof.
  eexists. split; [vm_compute; reflexivity|].
  destruct (single_flight_dispatch nat is_tome format_message plugin_config
              instructions burst fresh _
              ltac:(discriminate) eq_refl eq_refl
              ltac:(vm_compute; reflexivity))
    as (H1 & H2 & H3 & _).
  split; [exact H1|]. split; [exact H2 | exact H3].
Defined.

(** A group whose worker waits for the model, with events 1 and 2 pending
    and event 2 still on the queue. *)
Definition waiting : sys nat :=
  mkSys nat
    (mkGroupState nat (py "default") (Deque.mk 4 []) [2] true 0
       (Deque.mk 3 [1; 2]) None false)
    [PcModel [] (py "E1,E2")] [].

(** [model_failure_reported] on [waiting], for a timeout: the pending
    events are still 1 and 2, one failure message has gone out, and the
    worker has issued the next call on the same content. *)
Lemma model_failure_reported_witness :
  exists s1 s2,
    step (Wake 0 (ModelDone (ModelErr (py "Request timed out.")))) waiting
    = Some s1
    /\ step (Wake 0 SendDone) s1 = Some s2
    /\ Deque.items (history nat (gstate nat s2)) = []
    /\ Deque.items (past_events nat (gstate nat s2)) = [1; 2]
    /\ outbox nat s2 = [failure_message (py "Request timed out.")]
    /\ queue nat (gstate nat s2) = []
    /\ exists messages', tasks nat s2 = [PcModel messages' (py "E1,E2")].
Proof.
  destruct (model_failure_reported nat is_tome format_message plugin_config
              instructions waiting 0 [] (py "E1,E2")
              (py "Request timed out.") eq_refl)
    as (s1 & s2 & H1 & _ & _ & _ & H2 & Hh & Hp & Ho & Hnext & _).
  exists s1, s2. split; [exact H1|]. split; [exact H2|].
  split; [now rewrite Hh|]. split; [now rewrite Hp|].
  split; [exact Ho|].
  destruct (Hnext 2 [] eq_refl ltac:(discriminate)) as (Hq & _ & m & Ht).
  split; [exact Hq|]. exists m. exact Ht.
Defined.

(** The answer of the backend in [reply_stored_unsplit_witness]. *)
Definition two_segments : ChatMessage :=
  mkMessage (Some (py "Hello<botbr> World")) None.

(** [reply_stored_unsplit] on [waiting]: two texts go out, one turn with
    the whole reply is stored. *)
Lemma reply_stored_unsplit_witness :
  exists s',
    run [Wake 0 (ModelDone (ModelOk (mkCompletion [two_segments])));
         Wake 0 SleepDone; Wake 0 SendDone; Wake 0 SleepDone; Wake 0 SendDone]
      waiting = Some s'
    /\ Deque.items (history nat (gstate nat s'))
       = [mkTurn role_user (py "E1,E2");
          mkTurn role_assistant (py "Hello<botbr> World")]
    /\ outbox nat s' = [py "Hello"; py "World"].
Proof.
  destruct (reply_stored_unsplit nat is_tome format_message plugin_config
              instructions waiting 0 [] (py "E1,E2") two_segments []
              (py "Hello<botbr> World") (py "Hello<botbr> World") None
              eq_refl eq_refl eq_refl)
    as (s' & Hrun & Hh & Ho & _).
  exists s'. split; [exact Hrun|]. split; [now rewrite Hh | exact Ho].
Defined.

(** A group switched off. *)
Definition disabled : sys nat :=
  mkSys nat (set_preset_name nat off (GroupState_init nat plugin_config 0))
    [] [].

Definition arrivals : list (nat * Q) := [(1, 0%Q); (2, 0%Q); (3, 0%Q)].

(** [off_admits_nothing] on three arrivals at [disabled]. *)
Lemma off_admits_nothing_witness :
  Forall
    (fun a => (is_triggered nat is_tome plugin_config
                 (gstate nat disabled) a.1 a.2).1 = false) arrivals
  /\ exists s',
      run (map (arrival nat) arrivals) disabled = Some s'
      /\ queue nat (gstate nat s') = []
      /\ tasks nat s' = []
      /\ processing nat (gstate nat s') = false.
Proof.
  exact (off_admits_nothing nat is_tome format_message plugin_config
           instructions disabled arrivals eq_refl).
Defined.

(** [off_records_nothing] on the same arrivals, followed by the switch to
    the configured preset and a further event. *)
Lemma off_records_nothing_witness :
  (exists s',
      run (map (arrival nat) arrivals) disabled = Some s'
      /\ Deque.items (past_events nat (gstate nat s')) = [])
  /\ run (map (arrival nat) arrivals
          ++ [CmdPreset nat (py "default"); Inbound 4 0; Wake 0 Scheduled])
       disabled
     = run [CmdPreset nat (py "default"); Inbound 4 0; Wake 0 Scheduled]
         disabled.
Proof.
  destruct (off_records_nothing nat is_tome format_message plugin_config
              instructions disabled arrivals
              [CmdPreset nat (py "default"); Inbound 4 0; Wake 0 Scheduled]
              eq_refl)
    as [(s' & Hrun & Hp) Hlater].
  split; [|exact Hlater].
  exists s'. split; [exact Hrun | now rewrite Hp].
Defined.

(** A group mid-flight: two turns of history, an event queued and
    pending, a worker running. *)
Definition busy : GroupState nat :=
  mkGroupState nat (py "default")
    (Deque.mk 4 [mkTurn role_user (py "E1"); mkTurn role_assistant (py "ok")])
    [7] true 1700000000%Q (Deque.mk 3 [7]) (Some (py "a cat")) true.

(** [snapshot_roundtrip] on a map that holds [busy] under key 42. *)
Lemma snapshot_roundtrip_witness :
  exists loaded state',
    load_state nat plugin_config 0
      (Some (save_state nat ({[ 42%Z := busy ]}))) ∅
    = (loaded, Returned)
    /\ loaded !! 42%Z = Some state'
    /\ history nat state' = history nat busy
    /\ preset_name nat state' = py "default"
    /\ group_prompt nat state' = Some (py "a cat")
    /\ output_reasoning_content nat state' = true
    /\ last_active nat state' = 1700000000%Q
    /\ queue nat state' = []
    /\ processing nat state' = false
    /\ past_events nat state' = Deque.empty 3.
Proof.
  apply (snapshot_roundtrip nat plugin_config 0 ({[ 42%Z := busy ]}) ∅
           42%Z busy).
  - apply lookup_singleton_eq.
  - reflexivity.
  - unfold Deque.wf. simpl. lia.
Defined.

(** A batch the backend answers with no choice: [response.choices[0]]
    raises after the user turn is stored (lines 238, 241), and the worker
    reports the failure and ends. *)
Definition unanswered : list (label nat) :=
  [Inbound 1 0; Wake 0 Scheduled;
   Wake 0 (ModelDone (ModelOk (mkCompletion []))); Wake 0 SendDone].

(** A batch that is answered with a text. *)
Definition answered : list (label nat) :=
  [Inbound 2 0; Wake 0 Scheduled;
   Wake 0 (ModelDone (answer "ok")); Wake 0 SleepDone; Wake 0 SendDone].

(** C2 fails on a group state the program reaches.  After [unanswered]
    the group is idle (no worker, flag cleared, nothing queued or pending)
    and its history is the single user turn of the failed batch: the
    comment of line 237 says the turn is stored once the request has
    succeeded, so that user and assistant turns interleave, but lines
    241-252 can still raise after line 238 has stored it, and the [except]
    suite does not take it back.  From this state the successful batch
    [answered] calls the model with two user turns in a row (the stored one
    and the new one), and leaves the history user, user, assistant. *)
Theorem unanswered_batch_breaks_alternation :
  exists s1 s2 s3,
    run unanswered fresh = Some s1
    /\ tasks nat s1 = []
    /\ processing nat (gstate nat s1) = false
    /\ queue nat (gstate nat s1) = []
    /\ Deque.items (past_events nat (gstate nat s1)) = []
    /\ Deque.items (history nat (gstate nat s1))
       = [mkTurn role_user (py "E1")]
    /\ forallb (successful nat) answered = true
    /\ run (firstn 2 answered) s1 = Some s2
    /\ (exists system,
          tasks nat s2
          = [PcModel [system; mkTurn role_user (py "E1")] (py "E2")])
    /\ run (skipn 2 answered) s2 = Some s3
    /\ run answered s1 = Some s3
    /\ tasks nat s3 = []
    /\ Deque.items (history nat (gstate nat s3))
       = [mkTurn role_user (py "E1"); mkTurn role_user (py "E2");
          mkTurn role_assistant (py "ok")]
    /\ alternating (Deque.items (history nat (gstate nat s3))) = false.
Proof.
  do 3 eexists. split; [vm_compute; reflexivity|].
  do 6 (split; [reflexivity|]).
  split; [vm_compute; reflexivity|].
  split; [eexists; reflexivity|].
  split; [vm_compute; reflexivity|].
  repeat split; vm_compute; reflexivity.
Qed.

End Sample.

(** * Further concrete runs *)

Module MoreSamples.

Abbreviation plugin_config := Sample.plugin_config.
Abbreviation is_tome := Sample.is_tome.
Abbreviation format_message := Sample.format_message.
Abbreviation instructions := Sample.instructions.
Abbreviation fresh := Sample.fresh.
Abbreviation waiting := Sample.waiting.
Abbreviation busy := Sample.busy.
Abbreviation three_batches := Sample.three_batches.
Abbreviation answer := Sample.answer.
Abbreviation Inbound := (Inbound nat).
Abbreviation Wake := (Wake nat).


(** A configuration without presets. *)
Definition no_presets : Config :=
  mkConfig [] (py "default") 4 3 0 (py "be brief").

(** A group whose worker has been created for event 1 and has not run
    yet. *)
Definition submitted : sys nat :=
  mkSys nat
    (mkGroupState nat (py "default") (Deque.mk 4 []) [1] true 0
       (Deque.mk 3 [1]) None false)
    [PcStart] [].

Lemma pop_reasoning_content_no_block_witness :
  pop_reasoning_content (Some (py "Hello <think>x</think>"))
  = (Some (py "Hello <think>x</think>"), None).
Proof.
  apply pop_reasoning_content_no_block.
  intros inner after H. cbv in H. discriminate H.
Defined.

Lemma pop_reasoning_content_reasoning_witness :
  (pop_reasoning_content (Some (py "<think> plan </think>Hi"))).2
  = Some (py "plan").
Proof.
  apply (pop_reasoning_content_reasoning (py " plan ") (py "Hi")).
  - discriminate.
  - intros inner' after' H. cbv in H.
    do 6 (destruct inner' as [|? inner']; [discriminate H|]).
    simpl. lia.
Defined.

Lemma join_split_witness :
  split botbr (py "a<botbr>b<botbr>") = [py "a"; py "b"; []]
  /\ join botbr (split botbr (py "a<botbr>b<botbr>")) = py "a<botbr>b<botbr>".
Proof.
  split; [reflexivity|]. apply join_split. discriminate.
Defined.

Lemma for_loop_sends_stripped_pieces_witness :
  Sample.run
    (flat_map (fun _ => [Wake 0 SleepDone; Wake 0 SendDone])
       [py "a"; py "b c"])
    (apply_segment nat (mkSys nat (gstate nat waiting) [PcSendFail] []) 0
       (send_segments nat format_message plugin_config instructions
          (gstate nat waiting) [py " a "; []; py "  "; py "b c"] (py "r")))
  = Some
      (apply_segment nat
         (mkSys nat (gstate nat waiting) [PcSendFail] [py "a"; py "b c"]) 0
         (loop_head nat format_message plugin_config instructions
            (set_history nat
               (Deque.append (mkTurn role_assistant (py "r"))
                  (history nat (gstate nat waiting)))
               (gstate nat waiting)))).
Proof.
  exact (proj1 (for_loop_sends_stripped_pieces nat is_tome format_message
                  plugin_config instructions (gstate nat waiting)
                  [PcSendFail] [] 0 [py " a "; []; py "  "; py "b c"]
                  (py "r") ltac:(simpl; lia))).
Defined.

Lemma settings_only_change_by_command_witness :
  exists s',
    Sample.run three_batches fresh = Some s'
    /\ last_active nat (gstate nat s') = 0%Q
    /\ preset_name nat (gstate nat s') = py "default"
    /\ group_prompt nat (gstate nat s') = None
    /\ output_reasoning_content nat (gstate nat s') = false.
Proof.
  eexists. split; [vm_compute; reflexivity|].
  destruct (settings_only_change_by_command nat is_tome format_message
              plugin_config instructions three_batches fresh _
              ltac:(vm_compute; reflexivity))
    as [Hl Hc].
  split; [exact Hl|]. exact (Hc eq_refl).
Defined.

Lemma preset_name_stays_known_witness :
  exists s',
    Sample.run
      [CmdPreset nat (py "no such preset"); CmdPreset nat (py " off ")]
      fresh = Some s'
    /\ (preset_name nat (gstate nat s') = py "default"
        \/ preset_name nat (gstate nat s') = off
        \/ In (preset_name nat (gstate nat s'))
             (map name (api_presets plugin_config))).
Proof.
  eexists. split; [vm_compute; reflexivity|].
  exact (preset_name_stays_known nat is_tome format_message plugin_config
           instructions
           [CmdPreset nat (py "no such preset"); CmdPreset nat (py " off ")]
           fresh _ ltac:(vm_compute; reflexivity)).
Defined.

Lemma reset_cancels_batch_witness :
  exists s',
    Sample.run [CmdReset nat; Wake 0 Scheduled] submitted = Some s'
    /\ tasks nat s' = []
    /\ processing nat (gstate nat s') = false
    /\ queue nat (gstate nat s') = []
    /\ Deque.items (history nat (gstate nat s')) = []
    /\ Deque.items (past_events nat (gstate nat s')) = []
    /\ outbox nat s' = [].
Proof.
  exact (reset_cancels_batch nat is_tome format_message plugin_config
           instructions submitted 0 1 [] ltac:(discriminate) eq_refl
           eq_refl).
Defined.

Lemma answer_without_choices_witness :
  exists s',
    Sample.step (Wake 0 (ModelDone (ModelOk (mkCompletion [])))) waiting
    = Some s'
    /\ history nat (gstate nat s')
       = Deque.append (mkTurn role_user (py "E1,E2"))
           (history nat (gstate nat waiting))
    /\ Deque.items (past_events nat (gstate nat s')) = []
    /\ outbox nat s' = [failure_message index_error]
    /\ tasks nat s' = [PcSendFail].
Proof.
  exact (answer_without_choices nat is_tome format_message plugin_config
           instructions waiting 0 [] (py "E1,E2") eq_refl).
Defined.

Lemma answer_without_text_witness :
  exists s',
    Sample.run
      [Wake 0 (ModelDone (ModelOk (mkCompletion [mkMessage None None])))]
      waiting = Some s'
    /\ history nat (gstate nat s')
       = Deque.append (mkTurn role_user (py "E1,E2"))
           (history nat (gstate nat waiting))
    /\ Deque.items (past_events nat (gstate nat s')) = []
    /\ outbox nat s' = [unavailable]
    /\ tasks nat s' = [PcSendFail].
Proof.
  exact (answer_without_text nat is_tome format_message plugin_config
           instructions waiting 0 [] (py "E1,E2") (mkMessage None None) []
           eq_refl eq_refl).
Defined.

Lemma no_preset_sticks_witness :
  exists s',
    run nat is_tome format_message no_presets instructions
      [Inbound 1 0; Wake 0 Scheduled; Inbound 2 0; Inbound 3 0]
      (init_sys nat no_presets 0) = Some s'
    /\ tasks nat s' = []
    /\ processing nat (gstate nat s') = true
    /\ outbox nat s' = [].
Proof.
  eexists. split; [vm_compute; reflexivity|].
  exact (no_preset_sticks nat is_tome format_message no_presets
           instructions (init_sys nat no_presets 0) 1 0
           [Inbound 2 0; Inbound 3 0] _ eq_refl eq_refl eq_refl eq_refl
           ltac:(vm_compute; reflexivity)).
Defined.


Lemma model_calls_bounded_witness :
  exists s',
    Sample.run
      [Wake 0 (ModelDone (answer "ok")); Wake 0 SleepDone; Wake 0 SendDone]
      waiting = Some s'
    /\ 1 + budget nat s' <= budget nat waiting.
Proof.
  eexists. split; [vm_compute; reflexivity|].
  exact (model_calls_bounded nat is_tome format_message plugin_config
           instructions
           [Wake 0 (ModelDone (answer "ok")); Wake 0 SleepDone;
            Wake 0 SendDone]
           waiting _ eq_refl ltac:(vm_compute; reflexivity)).
Defined.

Lemma load_state_keeps_other_groups_witness :
  (load_state nat plugin_config 0
     (Some (save_state nat ({[ 42%Z := busy ]}))) ({[ 7%Z := busy ]})).1
  !! 7%Z
  = Some busy.
Proof.
  rewrite (load_state_keeps_other_groups nat plugin_config 0
             ({[ 42%Z := busy ]}) ({[ 7%Z := busy ]}) 7%Z).
  - apply lookup_singleton_eq.
  - apply lookup_singleton_ne. discriminate.
Defined.

Lemma load_entry_needs_every_key_witness :
  load_entry nat plugin_config 0 (py "42")
    (JObject [(py "preset", JString (py "default")); (py "history", JArray [])])
  = Raises.
Proof.
  apply (load_entry_needs_every_key nat plugin_config 0 (py "42") _
           (py "last_active")).
  - simpl. auto.
  - reflexivity.
Defined.


(** Two presets carry the name ["twin"]; the group has chosen that
    name. *)
Definition twins : Config :=
  mkConfig
    [mkPreset (py "default") (py "some-model");
     mkPreset (py "twin") (py "first-model");
     mkPreset (py "twin") (py "second-model")]
    (py "default") 4 3 0 (py "be brief").

Definition chose_twin : GroupState nat :=
  set_preset_name nat (py "twin") (GroupState_init nat twins 0).

(** [get_preset_fallback] on [twins]: the first of the two is chosen,
    the preset before it has another name. *)
Lemma get_preset_fallback_witness :
  get_preset nat twins chose_twin
  = Some (mkPreset (py "twin") (py "first-model"))
  /\ exists before after,
       api_presets twins
       = before ++ mkPreset (py "twin") (py "first-model") :: after
       /\ Forall (fun q => name q <> py "twin") before.
Proof.
  split; [reflexivity|].
  destruct (proj2 (get_preset_fallback nat twins chose_twin)
              (mkPreset (py "twin") (py "first-model")) eq_refl)
    as [_ [(before & after & Hl & _ & Hb) | [Hall _]]].
  - exists before, after. split; [exact Hl | exact Hb].
  - exfalso. apply Forall_cons in Hall as [_ Hall].
    apply Forall_cons in Hall as [Hne _]. now apply Hne.
Defined.

End MoreSamples.
